(** * graphtype: GraphQL introspection schema to TypeScript definitions

    A shallow embedding of [src/lib/typescript.ts] (with the data model of
    [lib/interface.ts]) and the properties of its translation engine:
    the type-reference resolver, the comment synthesizer, the per-kind
    renderers, the ordered work queue and its three consumers. *)

From Stdlib Require Import ZArith String Ascii List Lia.
From Stdlib Require Import Sorting.Sorted Sorting.Permutation.
From stdpp Require Import base option list sorting strings pretty gmap.

Local Open Scope string_scope.
Local Open Scope list_scope.
Local Open Scope Z_scope.
Set Warnings "-register-all".
#[local] Arguments String.append !_ _ : simpl nomatch.

(** ** Exceptions and fallible computations *)

(** The two kinds of exception the translation can raise: the [TypeError]
    of the engine when a property of [null] or [undefined] is read, and the
    [Error] the queue builder throws itself. *)
Inductive exn : Type :=
  | TypeError (msg : string)
  | Error (msg : string).

Inductive result (A : Type) : Type :=
  | Ok (a : A)
  | Throw (e : exn).
Arguments Ok {A} a.
Arguments Throw {A} e.

#[global] Instance result_ret : MRet result := fun A a => Ok a.
#[global] Instance result_bind : MBind result := fun A B f m =>
  match m with
  | Ok a => f a
  | Throw e => Throw e
  end.

Definition is_Ok {A} (r : result A) : bool :=
  match r with Ok _ => true | Throw _ => false end.

(** ** JavaScript values that the translation inspects *)

(** A property declared [string] that introspection documents also fill
    with [null]: [None] stands for [null] and for a missing property. *)
Definition jsstring := option string.

(** Truthiness of a string-or-null value: only a non-empty string. *)
Definition truthy (s : jsstring) : bool :=
  match s with
  | Some "" => false
  | Some _ => true
  | None => false
  end.

(** [String(v)], as applied by string concatenation and by [%s]. *)
Definition toString (s : jsstring) : string := default "null" s.

(** [AsDefault.defaultValue : string | number | null]. Numbers are the
    integer-valued ones; [DefaultAbsent] is [null] or a missing property. *)
Inductive DefaultValue : Type :=
  | DefaultAbsent
  | DefaultString (s : string)
  | DefaultNumber (n : Z).

Definition truthyDefault (v : DefaultValue) : bool :=
  match v with
  | DefaultAbsent => false
  | DefaultString s => truthy (Some s)
  | DefaultNumber n => negb (n =? 0)
  end.

Definition defaultToString (v : DefaultValue) : string :=
  match v with
  | DefaultAbsent => "null"
  | DefaultString s => s
  | DefaultNumber n => pretty n
  end.

(** The line feed, ['\n']. *)
Definition LF : string := String (ascii_of_nat 10) "".

(** The double quote that encloses an enum member. *)
Definition QUOTE : string := String (ascii_of_nat 34) "".

(** [Array.prototype.join] on an array of strings. *)
Fixpoint join (sep : string) (l : list string) : string :=
  match l with
  | [] => ""
  | [x] => x
  | x :: rest => x +:+ sep +:+ join sep rest
  end.

(** ** Data model ([lib/interface.ts]) *)

(** Modelled from the spec: the kind constants exported by
    [lib/introspection.ts], which is not among the sources. The spec names
    the kinds SCALAR, ENUM, UNION, INTERFACE, OBJECT, INPUT_OBJECT and the
    wrappers LIST and NON_NULL; the [__TypeKind] enum of the README and the
    keys of [TypeOrder] spell them the same way. *)
Definition SCALAR : string := "SCALAR".
Definition ENUM : string := "ENUM".
Definition UNION : string := "UNION".
Definition INTERFACE : string := "INTERFACE".
Definition OBJECT : string := "OBJECT".
Definition INPUT_OBJECT : string := "INPUT_OBJECT".
Definition LIST : string := "LIST".
Definition NON_NULL : string := "NON_NULL".

(** [TypeRef = Description & { ofType?: TypeRef }]. The [name] of a wrapper
    is [null] in an introspection document. *)
Inductive TypeRef : Type :=
  mkTypeRef { ref_kind : string; ref_name : jsstring; ref_ofType : option TypeRef }.

Record EnumValue : Type := mkEnumValue {
  ev_name : string;
  ev_description : jsstring;
  ev_isDeprecated : bool;
  ev_deprecationReason : jsstring
}.

Record InputValue : Type := mkInputValue {
  iv_name : string;
  iv_description : jsstring;
  iv_defaultValue : DefaultValue;
  iv_type : TypeRef
}.

Record Field : Type := mkField {
  f_name : string;
  f_description : jsstring;
  f_isDeprecated : bool;
  f_deprecationReason : jsstring;
  f_args : list InputValue;
  f_type : TypeRef
}.

Record SchemaType : Type := mkSchemaType {
  kind : string;
  name : string;
  description : jsstring;
  fields : list Field;
  inputFields : list InputValue;
  interfaces : list TypeRef;
  enumValues : list EnumValue;
  possibleTypes : list TypeRef
}.

(** An element of [schema.types] as the engine sees it. *)
Inductive Entry : Type :=
  | Undefined
  | Null
  | Obj (t : SchemaType).

(** [queryType], [mutationType], [subscriptionType]: an object with a
    [name], or [null]. *)
Record Schema : Type := mkSchema {
  queryType : option string;
  mutationType : option string;
  subscriptionType : option string;
  types : list Entry
}.

(** The argument of [descriptionToComment], typed
    [Description | Deprecation | AsDefault] and read through casts: a
    facet the object does not carry reads as [undefined]. *)
Record Commentable : Type := mkCommentable {
  c_defaultValue : DefaultValue;
  c_description : jsstring;
  c_isDeprecated : bool;
  c_deprecationReason : jsstring
}.

Definition ofSchemaType (t : SchemaType) : Commentable :=
  mkCommentable DefaultAbsent (description t) false None.
Definition ofField (f : Field) : Commentable :=
  mkCommentable DefaultAbsent (f_description f) (f_isDeprecated f) (f_deprecationReason f).
Definition ofInputValue (a : InputValue) : Commentable :=
  mkCommentable (iv_defaultValue a) (iv_description a) false None.
Definition ofEnumValue (v : EnumValue) : Commentable :=
  mkCommentable DefaultAbsent (ev_description v) (ev_isDeprecated v) (ev_deprecationReason v).

(** ** The type-reference resolver *)

(** The [TypeError] of reading [prop] of [null], in the wording of the V8
    releases the package runs on. *)
Definition readOfNull (prop : string) : exn :=
  TypeError ("Cannot read property '" +:+ prop +:+ "' of null").

(** [refToDefinition(type, isNonNull = false)]. A wrapper whose [ofType]
    is [null] makes the recursive call read [kind] of [null]. *)
Fixpoint refToDefinition (type : TypeRef) (isNonNull : bool) : result string :=
  let '(mkTypeRef kind name ofType) := type in
  if decide (kind = LIST) then
    match ofType with
    | Some inner => s ← refToDefinition inner false; Ok ("List<" +:+ s +:+ ">")
    | None => Throw (readOfNull "kind")
    end
  else if decide (kind = NON_NULL) then
    match ofType with
    | Some inner => s ← refToDefinition inner true; Ok ("NonNull<" +:+ s +:+ ">")
    | None => Throw (readOfNull "kind")
    end
  else
    Ok (if isNonNull then toString name else "Optional<" +:+ toString name +:+ ">").

Definition named (k n : string) : TypeRef := mkTypeRef k (Some n) None.
Definition listOf (t : TypeRef) : TypeRef := mkTypeRef LIST None (Some t).
Definition nonNullOf (t : TypeRef) : TypeRef := mkTypeRef NON_NULL None (Some t).

(** ** Numbers, arrays and objects of the engine *)

Definition readOfUndefined (prop : string) : exn :=
  TypeError ("Cannot read property '" +:+ prop +:+ "' of undefined").

(** The number a comparator returns. *)
Inductive jsnumber : Type :=
  | NaN
  | Num (z : Z).

(** [order > 0]; false for [NaN]. *)
Definition isPositive (order : jsnumber) : bool :=
  match order with
  | Num z => 0 <? z
  | NaN => false
  end.

Definition isUndefined (e : Entry) : bool :=
  match e with
  | Undefined => true
  | _ => false
  end.

(** [if (type)]: an object is truthy, [null] and [undefined] are not. *)
Definition isTruthy (e : Entry) : bool :=
  match e with
  | Obj _ => true
  | _ => false
  end.

(** [Array.prototype.sort(comparefn)]. ECMAScript moves every [undefined]
    to the end without showing it to [comparefn] and leaves the algorithm
    to the engine; the model is the insertion sort engines run on short
    arrays: [element] is moved down past every [tmp] of the sorted prefix
    for which [comparefn(tmp, element) > 0], scanning from the right.
    [prefixRev] is the sorted prefix, last element first. An exception of
    [comparefn] ends the sort. *)
Fixpoint insertSorted {A} (comparefn : A -> A -> result jsnumber)
    (element : A) (prefixRev : list A) : result (list A) :=
  match prefixRev with
  | [] => Ok [element]
  | tmp :: rest =>
      order ← comparefn tmp element;
      if isPositive order
      then moved ← insertSorted comparefn element rest; Ok (tmp :: moved)
      else Ok (element :: prefixRev)
  end.

Fixpoint insertionSort {A} (comparefn : A -> A -> result jsnumber)
    (prefixRev a : list A) : result (list A) :=
  match a with
  | [] => Ok (rev prefixRev)
  | element :: rest =>
      prefixRev ← insertSorted comparefn element prefixRev;
      insertionSort comparefn prefixRev rest
  end.

Definition arraySort (comparefn : Entry -> Entry -> result jsnumber)
    (a : list Entry) : result (list Entry) :=
  let defined := List.filter (fun e => negb (isUndefined e)) a in
  let undefineds := List.filter isUndefined a in
  sorted ← insertionSort comparefn [] defined;
  Ok (sorted ++ undefineds).

(** [array.forEach(f)] for a callback that pushes to an accumulator and
    may throw. *)
Fixpoint forEach {A S} (f : S -> A -> result S) (l : list A) (acc : S) : result S :=
  match l with
  | [] => Ok acc
  | x :: rest => acc ← f acc x; forEach f rest acc
  end.

(** [Object.assign(target, ...sources)] on string-valued objects: a later
    source overwrites the keys of the earlier ones. *)
Definition objectAssign (target : gmap string string)
    (sources : list (gmap string string)) : gmap string string :=
  foldl (fun acc source => source ∪ acc) target sources.

(** The members every object literal inherits from [Object.prototype]. *)
Definition objectPrototype : list string :=
  [ "constructor"; "hasOwnProperty"; "isPrototypeOf"; "propertyIsEnumerable";
    "toLocaleString"; "toString"; "valueOf"; "__proto__";
    "__defineGetter__"; "__defineSetter__"; "__lookupGetter__"; "__lookupSetter__" ].

(** What [object[key]] finds on a string-valued object literal: an own
    property, else an inherited member, else [undefined]. *)
Inductive Property : Type :=
  | Own (value : string)
  | Inherited (key : string)
  | Missing.

Definition getProperty (object : gmap string string) (key : string) : Property :=
  match object !! key with
  | Some value => Own value
  | None => if decide (key ∈ objectPrototype) then Inherited key else Missing
  end.

(** A unit of work of the queue, [() => string]. *)
Definition Task : Type := unit -> result string.

(** [ReadableFromQueue]: its queue, the chunks pushed so far, and whether
    the end of the stream ([null]) has been pushed. *)
Record ReadableFromQueue : Type := mkReadable {
  r_queue : list Task;
  r_chunks : list string;
  r_ended : bool
}.

Inductive PromiseState : Type :=
  | Pending
  | Resolved (value : string)
  | Rejected (reason : exn).

(** The promise of [createPromiseSchemaDefinition] with what its executor
    closes over: the queue, [buff], and the number of [next] callbacks
    waiting in the [process.nextTick] queue. *)
Record PromiseRun : Type := mkPromiseRun {
  p_queue : list Task;
  p_buff : string;
  p_state : PromiseState;
  p_ticks : nat
}.

(** ** Host functions

    [os.EOL], the [word-wrap] package and [String.prototype.localeCompare]
    belong to the platform, not to the repository; the translation is
    parameterised by them, and by [inspect key], the text [%s] prints for
    the member [key] of [Object.prototype]. [wrap comment width indent] is
    [wrap(comment, {width, indent})]. *)

(** Stand-ins used to run the translation on concrete schemas: [LF] serves
    as the POSIX [os.EOL]; the wrapper indents a line without breaking it;
    an inherited member prints as a native function; names are compared by
    code units (which agrees with every locale on the ASCII letters and
    digits of one case used below). *)
Definition nativeCode (key : string) : string :=
  "function " +:+ key +:+ "() { [native code] }".

Definition indentOnly (comment : string) (width : nat) (indent : string) : string :=
  if decide (comment = "") then "" else indent +:+ comment.

Definition ordinalCompare (a b : string) : Z :=
  match String.compare a b with
  | Eq => 0
  | Lt => -1
  | Gt => 1
  end.

Section Translation.

Variable EOL : string.
Variable wrap : string -> nat -> string -> string.
Variable inspect : string -> string.
Variable localeCompare : string -> string -> Z.

(** *** Utility *)

Definition TAB : string := "    ".

Definition beginComment (tab : string) : string := tab +:+ "/**".

Definition toComment (comment tab : string) : string :=
  wrap comment 80%nat (tab +:+ " * ").

Definition endComment (tab : string) : string := tab +:+ " */".

Definition utilDefinition : string :=
  join EOL [ "type NonNull<T> = T;";
             "type List<T> = T[];";
             "type Optional<T> = T | null;" ].

Definition responseDefinition (responseTypes : list string) : string :=
  join EOL [ "export interface Response {";
             "";
             TAB +:+ "data: " +:+ join " | " responseTypes +:+ ";";
             "";
             TAB +:+ "errors?: ErrorResponse[];";
             "}";
             "";
             "export interface ErrorResponse {";
             "";
             TAB +:+ "locations: ErrorLocation[];";
             "";
             TAB +:+ "message: string;";
             "}";
             "";
             "export interface ErrorLocation {";
             "";
             TAB +:+ "line: number;";
             "";
             TAB +:+ "column: number;";
             "}" ].

(** *** The comment synthesizer *)

(** [descriptionToComment(desc, tab = '')]: [def] is the array the source
    pushes to; the block is joined with a literal line feed. *)
Definition descriptionToComment (desc : Commentable) (tab : string) : string :=
  if truthyDefault (c_defaultValue desc) || truthy (c_description desc)
     || c_isDeprecated desc
  then
    let def : list string := [] in
    let def :=
      if c_isDeprecated desc then
        let deprecated := "@deprecated" in
        let deprecated :=
          if truthy (c_deprecationReason desc)
          then deprecated +:+ " " +:+ toString (c_deprecationReason desc)
          else deprecated in
        def ++ [toComment deprecated tab]
      else def in
    let def :=
      if truthyDefault (c_defaultValue desc) then
        let def := if (0 <? length def)%nat then def ++ [toComment "" tab] else def in
        def ++ [toComment ("@default " +:+ defaultToString (c_defaultValue desc)) tab]
      else def in
    let def :=
      if truthy (c_description desc) then
        let def := if (0 <? length def)%nat then def ++ [toComment "" tab] else def in
        def ++ [toComment (toString (c_description desc)) tab]
      else def in
    let def := beginComment tab :: def in
    let def := def ++ [endComment tab] in
    join LF def
  else "".

(** *** Per-kind renderers *)

(** [scalarToDefinition(type, typescriptAlias = 'string')]: an alias that
    is [undefined] takes the default. *)
Definition scalarToDefinition (type : SchemaType) (typescriptAlias : Property) : string :=
  let typescriptAlias := match typescriptAlias with
                         | Own value => value
                         | Inherited key => inspect key
                         | Missing => "string"
                         end in
  let def : list string := [] in
  let def := if truthy (description type)
             then def ++ [descriptionToComment (ofSchemaType type) ""] else def in
  let def := def ++ ["export type " +:+ name type +:+ " = " +:+ typescriptAlias +:+ ";"] in
  join EOL def.

Definition fieldToDefinition (field : Field) : result string :=
  let def := [""] in
  let assign := if decide (ref_kind (f_type field) = NON_NULL) then ": " else "?: " in
  let def := if truthy (f_description field) || f_isDeprecated field
             then def ++ [descriptionToComment (ofField field) TAB] else def in
  ref ← refToDefinition (f_type field) false;
  let def := def ++ [TAB +:+ f_name field +:+ assign +:+ ref +:+ ";"] in
  Ok (join EOL def).

(** [array.map(f)] for an [f] that may throw: the first exception ends
    the traversal. *)
Fixpoint mapM {A B} (f : A -> result B) (l : list A) : result (list B) :=
  match l with
  | [] => Ok []
  | x :: rest => y ← f x; ys ← mapM f rest; Ok (y :: ys)
  end.

Definition fieldsToDefinition (fields : list Field) : result string :=
  defs ← mapM fieldToDefinition fields; Ok (join EOL defs).

(** [inter.name] collected for [join], which prints [null] as the empty
    string. *)
Definition refNames (refs : list TypeRef) : list string :=
  map (fun r => default "" (ref_name r)) refs.

Definition typeToDefinition (type : SchemaType) : result string :=
  let impl := if (0 <? length (interfaces type))%nat
              then " extends " +:+ join ", " (refNames (interfaces type)) else "" in
  let def : list string := [] in
  let def := if truthy (description type)
             then def ++ [descriptionToComment (ofSchemaType type) ""] else def in
  let def := def ++ ["export interface " +:+ name type +:+ impl +:+ " {"] in
  body ← fieldsToDefinition (fields type);
  let def := def ++ [body] in
  let def := def ++ ["}"] in
  Ok (join EOL def).

Definition interfaceToDefinition (type : SchemaType) : result string :=
  let def : list string := [] in
  let def := if truthy (description type)
             then def ++ [descriptionToComment (ofSchemaType type) ""] else def in
  let def := def ++ ["export interface " +:+ name type +:+ " {"] in
  body ← fieldsToDefinition (fields type);
  let def := def ++ [body] in
  let def := def ++ ["}"] in
  Ok (join EOL def).

Definition inputValueToDefinition (arg : InputValue) : result string :=
  let def := [""] in
  let assign := if decide (ref_kind (iv_type arg) = NON_NULL) then ": " else "?: " in
  let def := if truthy (iv_description arg)
             then def ++ [descriptionToComment (ofInputValue arg) TAB] else def in
  ref ← refToDefinition (iv_type arg) false;
  let def := def ++ [TAB +:+ iv_name arg +:+ assign +:+ ref +:+ ";"] in
  Ok (join EOL def).

Definition inputValuesToDefinition (args : list InputValue) : result string :=
  defs ← mapM inputValueToDefinition args; Ok (join EOL defs).

Definition inputToDefinition (type : SchemaType) : result string :=
  let def : list string := [] in
  let def := if truthy (description type)
             then def ++ [descriptionToComment (ofSchemaType type) ""] else def in
  let def := def ++ ["export interface " +:+ name type +:+ " {"] in
  body ← inputValuesToDefinition (inputFields type);
  let def := def ++ [body] in
  let def := def ++ ["}"] in
  Ok (join EOL def).

Definition unionToDefinition (type : SchemaType) : string :=
  let def : list string := [] in
  let def := if truthy (description type)
             then def ++ [descriptionToComment (ofSchemaType type) ""] else def in
  let def := def ++ ["export type " +:+ name type +:+ " = "
                     +:+ join " | " (refNames (possibleTypes type)) +:+ ";"] in
  join EOL def.

Definition enumValueToDefinition (value : EnumValue) : string :=
  let def := [""] in
  let def := if truthy (ev_description value)
             then def ++ [descriptionToComment (ofEnumValue value) TAB] else def in
  let def := def ++ [TAB +:+ QUOTE +:+ ev_name value +:+ QUOTE] in
  join EOL def.

Definition enumValuesToDefinition (vals : list EnumValue) : string :=
  join (" |" +:+ EOL) (map enumValueToDefinition vals).

Definition enumToDefinition (type : SchemaType) : string :=
  let def : list string := [] in
  let def := if truthy (description type)
             then def ++ [descriptionToComment (ofSchemaType type) ""] else def in
  let def := def ++ ["export type " +:+ name type +:+ " = ("] in
  let def := def ++ [enumValuesToDefinition (enumValues type)] in
  let def := def ++ [");"] in
  join EOL def.

(** *** Ordering of the entities *)

(** [enum TypeOrder]: the value found under a key and used as an operand
    of [-]. Only the six member names give a number; a missing key
    ([undefined]), a reverse-mapping key such as ["0"] (a string that is
    not numeric) and an inherited member all coerce to [NaN], here [None]. *)
Definition TypeOrder (key : string) : option Z :=
  if decide (key = "SCALAR") then Some 0
  else if decide (key = "ENUM") then Some 1
  else if decide (key = "UNION") then Some 2
  else if decide (key = "INTERFACE") then Some 3
  else if decide (key = "OBJECT") then Some 4
  else if decide (key = "INPUT_OBJECT") then Some 5
  else None.

Definition minus (a b : option Z) : jsnumber :=
  match a, b with
  | Some x, Some y => Num (x - y)
  | _, _ => NaN
  end.

(** Reading property [prop] of an array element. *)
Definition deref (e : Entry) (prop : string) : result SchemaType :=
  match e with
  | Obj t => Ok t
  | Null => Throw (readOfNull prop)
  | Undefined => Throw (readOfUndefined prop)
  end.

(** The comparator handed to [sort]: [typeA.kind] is read first, then
    [typeB.kind]. *)
Definition compareTypes (typeA typeB : Entry) : result jsnumber :=
  a ← deref typeA "kind";
  b ← deref typeB "kind";
  if decide (kind a = kind b)
  then Ok (Num (localeCompare (name a) (name b)))
  else Ok (minus (TypeOrder (kind a)) (TypeOrder (kind b))).

(** The [switch (type.kind)] of the queue builder, as the block each of
    its cases renders. *)
Definition definitionOf (scalarAlias : gmap string string)
    (type : SchemaType) : result string :=
  if decide (kind type = SCALAR) then
    Ok (scalarToDefinition type (getProperty scalarAlias (name type)))
  else if decide (kind type = ENUM) then Ok (enumToDefinition type)
  else if decide (kind type = UNION) then Ok (unionToDefinition type)
  else if decide (kind type = INTERFACE) then interfaceToDefinition type
  else if decide (kind type = OBJECT) then typeToDefinition type
  else if decide (kind type = INPUT_OBJECT) then inputToDefinition type
  else Throw (Error ("Unexpected type: " +:+ kind type)).

(** *** The work queue *)

(** The built-in aliases, the last source of [Object.assign]. *)
Definition standardAlias : gmap string string :=
  {[ "Boolean" := "boolean"; "Int" := "number";
     "Float" := "number"; "String" := "string" ]}.

(** The body of the [forEach] callback: the truthiness guard, then the
    dispatch on [type.kind]. *)
Definition pushType (scalarAlias : gmap string string)
    (schemaDef : list Task) (type : Entry) : result (list Task) :=
  match type with
  | Obj type =>
      if decide (kind type = SCALAR) then
        Ok (schemaDef ++ [fun _ => Ok (scalarToDefinition type (getProperty scalarAlias (name type)))])
      else if decide (kind type = ENUM) then
        Ok (schemaDef ++ [fun _ => Ok (enumToDefinition type)])
      else if decide (kind type = UNION) then
        Ok (schemaDef ++ [fun _ => Ok (unionToDefinition type)])
      else if decide (kind type = INTERFACE) then
        Ok (schemaDef ++ [fun _ => interfaceToDefinition type])
      else if decide (kind type = OBJECT) then
        Ok (schemaDef ++ [fun _ => typeToDefinition type])
      else if decide (kind type = INPUT_OBJECT) then
        Ok (schemaDef ++ [fun _ => inputToDefinition type])
      else
        Throw (Error ("Unexpected type: " +:+ kind type))
  | Null | Undefined => Ok schemaDef
  end.

Definition responseTypesOf (schema : Schema) : list string :=
  let responseTypes : list string := [] in
  let responseTypes := match queryType schema with
                       | Some n => responseTypes ++ [n]
                       | None => responseTypes
                       end in
  let responseTypes := match mutationType schema with
                       | Some n => responseTypes ++ [n]
                       | None => responseTypes
                       end in
  match subscriptionType schema with
  | Some n => responseTypes ++ [n]
  | None => responseTypes
  end.

(** [createSchemaDefinitionQueue(schema, scalarAlias = {})]. [sort] works
    in place, so the call returns, next to the queue, the array that
    [schema.types] holds afterwards; nothing else of the input is written
    to. Nothing is said of the array when the call throws. *)
Definition createSchemaDefinitionQueue (schema : Schema)
    (scalarAlias : gmap string string) : result (list Entry * list Task) :=
  let scalarAlias := objectAssign ∅ [scalarAlias; standardAlias] in
  let responseTypes := responseTypesOf schema in
  let responseTypes := responseTypes ++ ["null"] in
  let schemaDef : list Task := [] in
  let schemaDef := schemaDef ++ [fun _ => Ok utilDefinition] in
  let schemaDef := schemaDef ++ [fun _ => Ok (responseDefinition responseTypes)] in
  sorted ← arraySort compareTypes (types schema);
  schemaDef ← forEach (pushType scalarAlias) sorted schemaDef;
  Ok (sorted, schemaDef).

(** *** The three consumers of the queue *)

(** [schemaToDefinition]: every task is run, the blocks are joined. *)
Definition schemaToDefinition (schema : Schema)
    (scalarAlias : gmap string string) : result (list Entry * string) :=
  '(types', queue) ← createSchemaDefinitionQueue schema scalarAlias;
  blocks ← mapM (fun task : Task => task tt) queue;
  Ok (types', join (EOL +:+ EOL) blocks +:+ EOL +:+ EOL).

(** The loop of [ReadableFromQueue._read]. [push chunks] is what
    [this.push(out)] returns once [chunks] have been pushed; the source
    stores it in [isPaused]. The result carries the value of [isPaused]
    at the exit of the loop. *)
Fixpoint readLoop (push : list string -> bool) (queue : list Task)
    (chunks : list string) : result (list Task * list string * bool) :=
  match queue with
  | [] => Ok ([], chunks, false)
  | task :: queue =>
      out ← task tt;
      let chunks := chunks ++ [out +:+ EOL +:+ EOL] in
      let isPaused := push chunks in
      if isPaused then Ok (queue, chunks, true) else readLoop push queue chunks
  end.

(** [_read()]: [this.push(null)], which ends the stream, unless the loop
    left [isPaused] set. *)
Definition _read (push : list string -> bool) (r : ReadableFromQueue)
    : result ReadableFromQueue :=
  '(queue, chunks, isPaused) ← readLoop push (r_queue r) (r_chunks r);
  Ok (mkReadable queue chunks (if isPaused : bool then r_ended r else true)).

Definition createReadableSchemaDefinition (schema : Schema)
    (scalarAlias : gmap string string) : result (list Entry * ReadableFromQueue) :=
  '(types', queue) ← createSchemaDefinitionQueue schema scalarAlias;
  Ok (types', mkReadable queue [] false).

(** A consumer that keeps reading: the stream calls [_read] again until
    the end has been pushed. *)
Fixpoint drain (fuel : nat) (push : list string -> bool) (r : ReadableFromQueue)
    : result ReadableFromQueue :=
  match fuel with
  | O => Ok r
  | S fuel =>
      if r_ended r then Ok r
      else r ← _read push r; drain fuel push r
  end.

(** The closure [next] of [createPromiseSchemaDefinition], run as one
    scheduled callback. Settling a promise that is settled has no effect. *)
Definition settle (p new : PromiseState) : PromiseState :=
  match p with
  | Pending => new
  | _ => p
  end.

Definition next (st : PromiseRun) : PromiseRun :=
  match p_queue st with
  | [] =>
      mkPromiseRun [] (p_buff st) (settle (p_state st) (Resolved (p_buff st))) (p_ticks st)
  | task :: queue =>
      match task tt with
      | Ok out =>
          mkPromiseRun queue (p_buff st +:+ out +:+ EOL +:+ EOL) (p_state st) (S (p_ticks st))
      | Throw err =>
          mkPromiseRun queue (p_buff st) (settle (p_state st) (Rejected err)) (p_ticks st)
      end
  end.

(** The executor handed to [new Promise]: it declares [buff] and [next]
    and returns; [next] is neither called nor scheduled. *)
Definition executor (queue : list Task) : PromiseRun :=
  mkPromiseRun queue "" Pending 0.

Definition createPromiseSchemaDefinition (schema : Schema)
    (scalarAlias : gmap string string) : result (list Entry * PromiseRun) :=
  '(types', queue) ← createSchemaDefinitionQueue schema scalarAlias;
  Ok (types', executor queue).

(** The event loop: each turn runs one callback scheduled with
    [process.nextTick], while there is one. *)
Fixpoint runTicks (fuel : nat) (st : PromiseRun) : PromiseRun :=
  match fuel, p_ticks st with
  | S fuel, S ticks =>
      runTicks fuel (next (mkPromiseRun (p_queue st) (p_buff st) (p_state st) ticks))
  | _, _ => st
  end.

End Translation.

(** ** The earlier revision of the emitter ([src/unnamed/part_004])

    Same renderers, same alias merge, same in-place sort and dispatch; the
    blocks are rendered inside the [forEach] and joined at once, the
    response scaffolding is written inline, and no blank line ends the
    document. *)
Module Part004.
Section Translation.

Variable EOL : string.
Variable wrap : string -> nat -> string -> string.
Variable inspect : string -> string.
Variable localeCompare : string -> string -> Z.

Definition pushType (scalarAlias : gmap string string)
    (def : list string) (type : Entry) : result (list string) :=
  match type with
  | Obj type =>
      block ← definitionOf EOL wrap inspect scalarAlias type;
      Ok (def ++ [block])
  | Null | Undefined => Ok def
  end.

Definition schemaToDefinition (schema : Schema)
    (scalarAlias : gmap string string) : result (list Entry * string) :=
  let scalarAlias := objectAssign ∅ [scalarAlias; standardAlias] in
  let def : list string := [] in
  let responseTypes := responseTypesOf schema in
  let response :=
    [ "export interface Response {";
      "";
      TAB +:+ "data: " +:+ join " | " responseTypes +:+ " | null;";
      "";
      TAB +:+ "errors?: ErrorResponse[];";
      "}";
      "";
      "export interface ErrorResponse {";
      "";
      TAB +:+ "locations: ErrorLocation[];";
      "";
      TAB +:+ "message: string;";
      "}";
      "";
      "export interface ErrorLocation {";
      "";
      TAB +:+ "line: number;";
      "";
      TAB +:+ "column: number;";
      "}" ] in
  let def := def ++ [utilDefinition EOL] in
  let def := def ++ [join EOL response] in
  sorted ← arraySort (compareTypes localeCompare) (types schema);
  def ← forEach (pushType scalarAlias) sorted def;
  Ok (sorted, join (EOL +:+ EOL) def).

End Translation.
End Part004.

(** ** Vocabulary of the properties *)

(** The six kinds the dispatch knows. *)
Definition knownKind (k : string) : Prop :=
  k ∈ [SCALAR; ENUM; UNION; INTERFACE; OBJECT; INPUT_OBJECT].

#[global] Instance knownKind_dec (k : string) : Decision (knownKind k).
Proof. unfold knownKind. apply _. Defined.

(** The entities of an array: its truthy elements, in order. *)
Definition objects (a : list Entry) : list SchemaType :=
  omap (fun e => match e with Obj t => Some t | _ => None end) a.

(** [x] may stay in front of [y]: the comparator answers, and not with a
    positive number. *)
Definition staysBefore {A} (comparefn : A -> A -> result jsnumber) (x y : A) : Prop :=
  ∃ order, comparefn x y = Ok order ∧ isPositive order = false.




(** What the host guarantees of [localeCompare]: ECMAScript requires it to
    be a consistent comparison function on the set of all strings. *)
Definition antisymmetricCompare (localeCompare : string -> string -> Z) : Prop :=
  ∀ a b, Z.sgn (localeCompare b a) = - Z.sgn (localeCompare a b).

Definition transitiveCompare (localeCompare : string -> string -> Z) : Prop :=
  ∀ a b c, localeCompare a b ≤ 0 → localeCompare b c ≤ 0 → localeCompare a c ≤ 0.

Definition consistentCompare (localeCompare : string -> string -> Z) : Prop :=
  antisymmetricCompare localeCompare ∧ transitiveCompare localeCompare.

(** The alias the queue builder hands to the scalar renderer for a name. *)
Definition builtinScalar (n : string) : Prop :=
  n ∈ ["Boolean"; "Int"; "Float"; "String"].

#[global] Instance builtinScalar_dec (n : string) : Decision (builtinScalar n).
Proof. unfold builtinScalar. apply _. Defined.

(** The schema object once its [types] array holds [a]. *)
Definition withTypes (schema : Schema) (a : list Entry) : Schema :=
  mkSchema (queryType schema) (mutationType schema) (subscriptionType schema) a.

(** Running every task of a queue, in order. *)
Definition runAll (queue : list Task) : result (list string) :=
  mapM (fun task : Task => task tt) queue.

(** The blocks of the entities of a queue: what its tasks return, the two
    preamble units left out. *)
Definition entityBlocks (r : result (list Entry * list Task)) : result (list string) :=
  '(_, queue) ← r; blocks ← runAll queue; Ok (drop 2 blocks).


(** The queue of a call, the array set aside. *)
Definition queueOf (r : result (list Entry * list Task)) : result (list Task) :=
  '(_, queue) ← r; Ok queue.

(** What a consumer of the stream has received: the chunks, concatenated. *)
Definition contentOf (chunks : list string) : string :=
  foldr String.append "" chunks.

(** The chunk made of a block. *)
Definition chunkOf (EOL block : string) : string := block +:+ EOL +:+ EOL.

(** Concrete schemas. *)
Definition plainType (k n : string) : SchemaType :=
  mkSchemaType k n None [] [] [] [] [].

Definition schemaOf (a : list Entry) : Schema := mkSchema None None None a.

Definition intScalar : SchemaType := plainType SCALAR "Int".

Definition defaultOnlyArg : InputValue :=
  mkInputValue "limit" None (DefaultString "10") (named SCALAR "Int").


Definition unknownBehindNull : list Entry := [ Null; Obj (plainType "FOO" "X") ].

Definition scalarBehindNull : list Entry := [ Null; Obj (plainType SCALAR "A") ].

Definition unsortedPair : list Entry :=
  [ Obj (plainType OBJECT "B"); Obj (plainType SCALAR "A") ].

Definition sortedPair : list Entry :=
  [ Obj (plainType SCALAR "A"); Obj (plainType OBJECT "B") ].

Definition bigintAlias : gmap string string := {[ "Int" := "bigint-equivalent" ]}.


(** ** The command ([lib/command.ts])

    The flags as the command reads them: a value flag is a string or
    [undefined], a list flag an array or [undefined]. *)
Module Command.

Record IFlags : Type := mkFlags {
  endpoint : jsstring;
  headers : option (list string);
  queries : option (list string);
  scalarAlias : option (list string);
  scalarNumbers : option (list string);
  schemaFile : jsstring;
  output : jsstring;
  version : bool
}.

(** [String.prototype.split(separator)] for a non-empty separator: the
    pieces between the occurrences of the separator, found from the left.
    [skip] counts the characters of a found separator still to pass,
    [piece] is the piece being read. *)
Fixpoint splitFrom (separator : string) (skip : nat) (piece s : string) : list string :=
  match s with
  | "" => [piece]
  | String c rest =>
      match skip with
      | S skip => splitFrom separator skip piece rest
      | O =>
          if String.prefix separator s
          then piece :: splitFrom separator (String.length separator - 1) "" rest
          else splitFrom separator O (piece +:+ String c "") rest
      end
  end.

Definition split (s separator : string) : list string :=
  splitFrom separator 0 "" s.

(** [split(separator, limit)]: the first [limit] pieces. *)
Definition splitLimit (s separator : string) (limit : nat) : list string :=
  take limit (split s separator).

(** A destructured element used as a property key; [undefined] is the key
    ["undefined"]. *)
Definition toKey (s : jsstring) : string := default "undefined" s.

(** [object[key] = value] on an object literal: an own property is
    written, except under [__proto__], where a value that is not an object
    is ignored by the inherited setter. *)
Definition setProperty {V} (object : gmap string V) (key : string) (value : V)
    : gmap string V :=
  if decide (key = "__proto__") then object else <[key := value]> object.

(** [getAlias(input)]: the names of [--number-alias] first, then the
    [name=expression] pairs of [--alias]. A pair is destructured from
    [split('=')]: its expression is the second piece, [undefined] when
    there is none. *)
Definition getAlias (flags : IFlags) : gmap string jsstring :=
  let alias : gmap string jsstring := ∅ in
  let alias :=
    match scalarNumbers flags with
    | Some names =>
        foldl (fun alias scalarName => setProperty alias scalarName (Some "number"))
              alias names
    | None => alias
    end in
  match scalarAlias flags with
  | Some entries =>
      foldl (fun alias scalarAlias =>
               let parts := split scalarAlias "=" in
               let scalarName := parts !! 0%nat in
               let scalarRepresentation := parts !! 1%nat in
               setProperty alias (toKey scalarName) scalarRepresentation)
            alias entries
  | None => alias
  end.

(** What [require] or the HTTP response body holds: not an object, an
    object without [data], or [data] with its [__schema], if any. *)
Inductive Introspection : Type :=
  | NotAnObject
  | NoData
  | Data (schema : option Schema).

(** [introspection.data.__schema]. *)
Definition schemaOfIntrospection (introspection : Introspection) : result (option Schema) :=
  match introspection with
  | NotAnObject => Throw (readOfNull "data")
  | NoData => Throw (readOfUndefined "__schema")
  | Data schema => Ok schema
  end.

(** How the promise of [getSchema] ends: resolved, rejected, or left
    pending by an exception thrown in the callback of [request], which
    nothing catches. *)
Inductive Settlement (A : Type) : Type :=
  | Resolves (a : A)
  | Rejects (e : exn)
  | Uncaught (e : exn).
Arguments Resolves {A} a.
Arguments Rejects {A} e.
Arguments Uncaught {A} e.

(** The options handed to [request]. *)
Record RequestOptions : Type := mkOptions {
  url : string;
  method : string;
  json : bool;
  body : string;
  o_headers : gmap string jsstring;
  qs : string
}.

(** The reducer of [headers], started from [{}]. *)
Definition reduceHeaders (headers : list string) : gmap string jsstring :=
  foldl (fun result header =>
           let parts := splitLimit header ": " 2 in
           setProperty result (toKey (parts !! 0%nat)) (parts !! 1%nat))
        ∅ headers.

(** The name a query is assigned under: the first piece of
    [query.split('=', 2)]. *)
Definition queryName (query : string) : string :=
  toKey (splitLimit query "=" 2 !! 0%nat).

(** The reducer of [queries], which is given no initial value: the first
    query is the accumulator, and the callback assigns a property to that
    string. Under [__proto__] the assignment reaches the inherited setter,
    which returns without effect for a receiver that is not an object;
    under any other name it throws in strict code and does nothing
    otherwise (the wording of the error is that of a key the string does
    not have). *)
Definition reduceQueries (strict : bool) (queries : list string) : result string :=
  match queries with
  | [] => Throw (TypeError "Reduce of empty array with no initial value")
  | first :: rest =>
      forEach (fun (result : string) (query : string) =>
                 let name := queryName query in
                 if decide (name = "__proto__") then Ok result
                 else if strict
                 then Throw (TypeError ("Cannot create property '" +:+ name
                                        +:+ "' on string '" +:+ result +:+ "'"))
                 else Ok result)
              rest first
  end.

Section Host.

(** [path.resolve], [require], [request] with the outcome its callback is
    given, the query text of [lib/introspection.ts], and whether the
    compiled module is strict code. *)
Variable resolve : string -> string.
Variable require : string -> result Introspection.
Variable request : RequestOptions -> exn + Introspection.
Variable introspectionQuery : string.
Variable strict : bool.

(** [getSchema(input)]. [Throw] is an exception of the call itself, before
    any promise exists. *)
Definition getSchema (flags : IFlags) : result (Settlement (option Schema)) :=
  if truthy (schemaFile flags) then
    Ok (match (introspection ← require (resolve (toString (schemaFile flags)));
               schemaOfIntrospection introspection) with
        | Ok schema => Resolves schema
        | Throw err => Rejects err
        end)
  else if truthy (endpoint flags) then
    o_headers ← match headers flags with
                | Some headers => Ok (reduceHeaders headers)
                | None => Throw (readOfUndefined "reduce")
                end;
    qs ← match queries flags with
         | Some queries => reduceQueries strict queries
         | None => Throw (readOfUndefined "reduce")
         end;
    let options :=
      mkOptions (toString (endpoint flags)) "POST" true introspectionQuery o_headers qs in
    Ok (match request options with
        | inl err => Rejects err
        | inr introspection =>
            match schemaOfIntrospection introspection with
            | Ok schema => Resolves schema
            | Throw err => Uncaught err
            end
        end)
  else
    Ok (Rejects (Error "Endpoint (--endpoint, -e) or Schema File (--schema, -s) are require.")).

End Host.

End Command.

(** ** The first revision of the emitter ([src/unnamed/part_003])

    Before the response scaffolding, the sort and the optional marker: the
    roots are written as a [Schema] interface with their comments, every
    member is written with [": "], a scalar alias is not exported, a union
    has no comment, and the entities are rendered in the order of the
    array, on which nothing is written. *)
Module Part003.

(** A root of the schema: its [name] and [description]. *)
Record Root : Type := mkRoot {
  root_name : string;
  root_description : jsstring
}.

Record Schema : Type := mkSchema {
  queryType : option Root;
  mutationType : option Root;
  subscriptionType : option Root;
  types : list Entry
}.

Definition ofRoot (r : Root) : Commentable :=
  mkCommentable DefaultAbsent (root_description r) false None.

Section Translation.

Variable EOL : string.
Variable wrap : string -> nat -> string -> string.
Variable inspect : string -> string.

Definition scalarToDefinition (type : SchemaType) (typescriptAlias : Property) : string :=
  let typescriptAlias := match typescriptAlias with
                         | Own value => value
                         | Inherited key => inspect key
                         | Missing => "string"
                         end in
  let def : list string := [] in
  let def := if truthy (description type)
             then def ++ [descriptionToComment wrap (ofSchemaType type) ""] else def in
  let def := def ++ ["type " +:+ name type +:+ " = " +:+ typescriptAlias +:+ ";"] in
  join EOL def.

Definition fieldToDefinition (field : Field) : result string :=
  let def := [""] in
  let def := if truthy (f_description field) || f_isDeprecated field
             then def ++ [descriptionToComment wrap (ofField field) TAB] else def in
  ref ← refToDefinition (f_type field) false;
  let def := def ++ [TAB +:+ f_name field +:+ ": " +:+ ref +:+ ";"] in
  Ok (join EOL def).

Definition fieldsToDefinition (fields : list Field) : result string :=
  defs ← mapM fieldToDefinition fields; Ok (join EOL defs).

Definition typeToDefinition (type : SchemaType) : result string :=
  let impl := if (0 <? length (interfaces type))%nat
              then " extends " +:+ join ", " (refNames (interfaces type)) else "" in
  let def : list string := [] in
  let def := if truthy (description type)
             then def ++ [descriptionToComment wrap (ofSchemaType type) ""] else def in
  let def := def ++ ["export interface " +:+ name type +:+ impl +:+ " {"] in
  body ← fieldsToDefinition (fields type);
  let def := def ++ [body] in
  let def := def ++ ["}"] in
  Ok (join EOL def).

Definition interfaceToDefinition (type : SchemaType) : result string :=
  let def : list string := [] in
  let def := if truthy (description type)
             then def ++ [descriptionToComment wrap (ofSchemaType type) ""] else def in
  let def := def ++ ["export interface " +:+ name type +:+ " {"] in
  body ← fieldsToDefinition (fields type);
  let def := def ++ [body] in
  let def := def ++ ["}"] in
  Ok (join EOL def).

Definition inputValueToDefinition (arg : InputValue) : result string :=
  let def := [""] in
  let def := if truthy (iv_description arg)
             then def ++ [descriptionToComment wrap (ofInputValue arg) TAB] else def in
  ref ← refToDefinition (iv_type arg) false;
  let def := def ++ [TAB +:+ iv_name arg +:+ ": " +:+ ref +:+ ";"] in
  Ok (join EOL def).

Definition inputValuesToDefinition (args : list InputValue) : result string :=
  defs ← mapM inputValueToDefinition args; Ok (join EOL defs).

Definition inputToDefinition (type : SchemaType) : result string :=
  let def : list string := [] in
  let def := if truthy (description type)
             then def ++ [descriptionToComment wrap (ofSchemaType type) ""] else def in
  let def := def ++ ["export interface " +:+ name type +:+ " {"] in
  body ← inputValuesToDefinition (inputFields type);
  let def := def ++ [body] in
  let def := def ++ ["}"] in
  Ok (join EOL def).

Definition unionToDefinition (type : SchemaType) : string :=
  "export type " +:+ name type +:+ " = "
  +:+ join " | " (refNames (possibleTypes type)) +:+ ";".

(** The [switch (type.kind)] of this revision, in the order of its cases. *)
Definition definitionOf (scalarAlias : gmap string string)
    (type : SchemaType) : result string :=
  if decide (kind type = SCALAR) then
    Ok (scalarToDefinition type (getProperty scalarAlias (name type)))
  else if decide (kind type = OBJECT) then typeToDefinition type
  else if decide (kind type = INTERFACE) then interfaceToDefinition type
  else if decide (kind type = UNION) then Ok (unionToDefinition type)
  else if decide (kind type = INPUT_OBJECT) then inputToDefinition type
  else if decide (kind type = ENUM) then Ok (enumToDefinition EOL wrap type)
  else Throw (Error ("Unexpected type: " +:+ kind type)).

Definition pushType (scalarAlias : gmap string string)
    (def : list string) (type : Entry) : result (list string) :=
  match type with
  | Obj type =>
      block ← definitionOf scalarAlias type;
      Ok (def ++ [block])
  | Null | Undefined => Ok def
  end.

(** The lines a root adds to the [Schema] interface. *)
Definition rootLines (member : string) (root : option Root) : list string :=
  match root with
  | Some root =>
      [ ""; descriptionToComment wrap (ofRoot root) "";
        TAB +:+ member +:+ ": " +:+ root_name root ]
  | None => []
  end.

Definition schemaBlock (schema : Schema) : string :=
  let schemaDef := ["export interface Schema {"] in
  let schemaDef := schemaDef ++ rootLines "query" (queryType schema) in
  let schemaDef := schemaDef ++ rootLines "mutation" (mutationType schema) in
  let schemaDef := schemaDef ++ rootLines "subscription" (subscriptionType schema) in
  let schemaDef := schemaDef ++ ["}"] in
  join EOL schemaDef.

Definition schemaToDefinition (schema : Schema)
    (scalarAlias : gmap string string) : result string :=
  let scalarAlias := objectAssign ∅ [scalarAlias; standardAlias] in
  let def : list string := [] in
  let def := def ++ [utilDefinition EOL] in
  let def := def ++ [schemaBlock schema] in
  def ← forEach (pushType scalarAlias) (types schema) def;
  Ok (join (EOL +:+ EOL) def).

End Translation.
End Part003.

(** ** Further vocabulary *)

Definition isWrapper (kind : string) : bool :=
  bool_decide (kind = LIST ∨ kind = NON_NULL).

(** A reference is well formed when each of its wrappers has an [ofType]. *)
Fixpoint wellFormed (type : TypeRef) : bool :=
  let '(mkTypeRef kind _ ofType) := type in
  if isWrapper kind
  then match ofType with
       | Some inner => wellFormed inner
       | None => false
       end
  else true.

(** The kinds of the wrappers of a reference, outermost first, and the
    reference under them. *)
Fixpoint wrappersOf (type : TypeRef) : list string :=
  let '(mkTypeRef kind _ ofType) := type in
  if isWrapper kind
  then kind :: match ofType with
               | Some inner => wrappersOf inner
               | None => []
               end
  else [].

Fixpoint leafOf (type : TypeRef) : TypeRef :=
  let '(mkTypeRef kind _ ofType) := type in
  if isWrapper kind
  then match ofType with
       | Some inner => leafOf inner
       | None => type
       end
  else type.

Definition opener (kind : string) : string :=
  if decide (kind = LIST) then "List<" else "NonNull<".

Fixpoint openers (kinds : list string) : string :=
  match kinds with
  | [] => ""
  | kind :: kinds => opener kind +:+ openers kinds
  end.

Fixpoint closers (n : nat) : string :=
  match n with
  | O => ""
  | S n => ">" +:+ closers n
  end.

(** The facets of a comment block, in the order they are written. *)
Definition facets (wrap : string -> nat -> string -> string)
    (desc : Commentable) (tab : string) : list string :=
  (if c_isDeprecated desc
   then [toComment wrap
           ("@deprecated" +:+ (if truthy (c_deprecationReason desc)
                               then " " +:+ toString (c_deprecationReason desc)
                               else "")) tab]
   else [])
  ++ (if truthyDefault (c_defaultValue desc)
      then [toComment wrap ("@default " +:+ defaultToString (c_defaultValue desc)) tab]
      else [])
  ++ (if truthy (c_description desc)
      then [toComment wrap (toString (c_description desc)) tab]
      else []).

(** A list with [sep] between its elements. *)
Fixpoint intersperse {A} (sep : A) (l : list A) : list A :=
  match l with
  | [] => []
  | [x] => [x]
  | x :: rest => x :: sep :: intersperse sep rest
  end.

(** The elements of an array that are not [undefined]. *)
Definition definedEntries (a : list Entry) : list Entry :=
  List.filter (fun e => negb (isUndefined e)) a.

(** The alias object of [getAlias] as the translation reads it: the
    properties that hold a string. A property that holds [undefined] is
    left out, the default of [scalarToDefinition] applying to it as to an
    absent one (under the name of a member of [Object.prototype] the own
    property would hide the member; the statements below read the table
    at names that hold a string). *)
Definition aliasTable (alias : gmap string jsstring) : gmap string string :=
  omap id alias.

(** Whether a string holds the character [c]. *)
Fixpoint holds (c : ascii) (s : string) : bool :=
  match s with
  | "" => false
  | String c' rest => if decide (c' = c) then true else holds c rest
  end.

(** Whether the separator occurs nowhere in a string. *)
Fixpoint separatorFree (separator s : string) : bool :=
  match s with
  | "" => true
  | String _ rest => negb (String.prefix separator s) && separatorFree separator rest
  end.

(** Further concrete inputs. *)
Definition brokenBox : SchemaType :=
  mkSchemaType OBJECT "Box" None
    [mkField "value" None false None [] (mkTypeRef LIST None None)] [] [] [] [].

Definition rootedSchema : Schema :=
  mkSchema (Some "Query") None None [Obj (plainType OBJECT "Query")].

Definition aliasFlags (numbers entries : list string) : Command.IFlags :=
  Command.mkFlags None None None (Some entries) (Some numbers) None None false.

Definition endpointFlags (headers queries : option (list string)) : Command.IFlags :=
  Command.mkFlags (Some "http://localhost:8080/graphql") headers queries
    None None None None false.

(** A host for the command: paths are left as they are, no file is found,
    and the endpoint answers with an empty schema. *)
Definition noFile (path : string) : result Command.Introspection :=
  Throw (Error ("Cannot find module '" +:+ path +:+ "'")).

Definition emptyAnswer (options : Command.RequestOptions) : exn + Command.Introspection :=
  inr (Command.Data (Some (schemaOf []))).

(** * Properties *)

(** ** Strings and the error monad *)

Lemma append_assoc (a b c : string) : (a +:+ b) +:+ c = a +:+ (b +:+ c).
Proof. induction a as [|ch a IH]; simpl; [reflexivity | f_equal; exact IH]. Qed.

Lemma append_nil_inv (a b : string) : a +:+ b = "" → a = "" ∧ b = "".
Proof. destruct a; simpl; [tauto | discriminate]. Qed.

Lemma bind_Ok {A B} (m : result A) (f : A → result B) (b : B) :
  m ≫= f = Ok b → ∃ a, m = Ok a ∧ f a = Ok b.
Proof. destruct m as [a|e]; simpl; [eauto | discriminate]. Qed.

Ltac inv_bind H :=
  let a := fresh "a" in
  let Ha := fresh "Ha" in
  apply bind_Ok in H; destruct H as (a & Ha & H).

(** ** The type-reference resolver *)

Lemma refToDefinition_list (inner : TypeRef) (n : jsstring) (isNonNull : bool) :
  refToDefinition (mkTypeRef LIST n (Some inner)) isNonNull
  = s ← refToDefinition inner false; Ok ("List<" +:+ s +:+ ">").
Proof. reflexivity. Qed.

Lemma refToDefinition_nonNull (inner : TypeRef) (n : jsstring) (isNonNull : bool) :
  refToDefinition (mkTypeRef NON_NULL n (Some inner)) isNonNull
  = s ← refToDefinition inner true; Ok ("NonNull<" +:+ s +:+ ">").
Proof. reflexivity. Qed.

Lemma refToDefinition_named (T : TypeRef) (n : string) (isNonNull : bool) :
  ref_kind T ≠ LIST → ref_kind T ≠ NON_NULL → ref_name T = Some n →
  refToDefinition T isNonNull
  = Ok (if isNonNull then n else "Optional<" +:+ n +:+ ">").
Proof.
  destruct T as [k nm o]; simpl; intros HL HN ->.
  destruct (decide (k = LIST)); [contradiction|].
  destruct (decide (k = NON_NULL)); [contradiction|].
  reflexivity.
Qed.

(** C2. For a named type [T] (kind neither LIST nor NON_NULL) of name [n],
    the resolver maps the nullability combinations as follows: the bare
    reference to [Optional<n>], [NON_NULL(T)] to [NonNull<n>] with the bare
    name inside, [LIST(T)] to [List<Optional<n>>], and
    [NON_NULL(LIST(NON_NULL(T)))] to exactly [NonNull<List<NonNull<n>>>];
    descending into a LIST resets the non-null flag to false and
    descending into a NON_NULL sets it, whatever the flag was. *)
Theorem refToDefinition_nullability (T : TypeRef) (n : string) :
  ref_kind T ≠ LIST → ref_kind T ≠ NON_NULL → ref_name T = Some n →
  refToDefinition T false = Ok ("Optional<" +:+ n +:+ ">") ∧
  refToDefinition (nonNullOf T) false = Ok ("NonNull<" +:+ n +:+ ">") ∧
  refToDefinition (listOf T) false = Ok ("List<Optional<" +:+ n +:+ ">>") ∧
  refToDefinition (listOf (nonNullOf T)) false = Ok ("List<NonNull<" +:+ n +:+ ">>") ∧
  refToDefinition (nonNullOf (listOf T)) false
    = Ok ("NonNull<List<Optional<" +:+ n +:+ ">>>") ∧
  refToDefinition (nonNullOf (listOf (nonNullOf T))) false
    = Ok ("NonNull<List<NonNull<" +:+ n +:+ ">>>") ∧
  (∀ inner nm isNonNull,
     refToDefinition (mkTypeRef LIST nm (Some inner)) isNonNull
     = s ← refToDefinition inner false; Ok ("List<" +:+ s +:+ ">")) ∧
  (∀ inner nm isNonNull,
     refToDefinition (mkTypeRef NON_NULL nm (Some inner)) isNonNull
     = s ← refToDefinition inner true; Ok ("NonNull<" +:+ s +:+ ">")).
Proof.
  intros HL HN Hn.
  pose proof (refToDefinition_named T n false HL HN Hn) as Hf.
  pose proof (refToDefinition_named T n true HL HN Hn) as Ht.
  unfold nonNullOf, listOf.
  repeat split;
    repeat (rewrite ?refToDefinition_list, ?refToDefinition_nonNull);
    rewrite ?Hf, ?Ht; simpl; rewrite ?append_assoc; reflexivity.
Qed.

Lemma refToDefinition_nullability_witness :
  refToDefinition (nonNullOf (listOf (nonNullOf (named OBJECT "T")))) false
  = Ok "NonNull<List<NonNull<T>>>".
Proof.
  apply (refToDefinition_nullability (named OBJECT "T") "T");
    [discriminate | discriminate | reflexivity].
Defined.

(** ** The comment synthesizer *)

Section Comments.

Variable EOL : string.
Variable wrap : string -> nat -> string -> string.

Lemma join_two_or_more (sep x : string) (l : list string) (y : string) :
  sep ≠ "" → join sep (x :: l ++ [y]) ≠ "".
Proof.
  intros Hsep H. destruct (l ++ [y]) as [|z l'] eqn:E.
  - now destruct l.
  - simpl in H. apply append_nil_inv in H as [_ H].
    apply append_nil_inv in H as [H _]. contradiction.
Qed.

Lemma descriptionToComment_absent (desc : Commentable) (tab : string) :
  truthyDefault (c_defaultValue desc) = false →
  truthy (c_description desc) = false →
  c_isDeprecated desc = false →
  descriptionToComment wrap desc tab = "".
Proof. unfold descriptionToComment. now intros -> -> ->. Qed.

Lemma descriptionToComment_present (desc : Commentable) (tab : string) :
  truthyDefault (c_defaultValue desc) || truthy (c_description desc)
    || c_isDeprecated desc = true →
  descriptionToComment wrap desc tab ≠ "".
Proof.
  unfold descriptionToComment. intros ->.
  cbv zeta. rewrite <- app_comm_cons. apply join_two_or_more. discriminate.
Qed.

(** C8. The synthesizer emits a block exactly when one of: a truthy
    default value, a truthy description, the deprecation flag, is there. A
    default value that is the number 0 or the empty string is falsy: with
    no description and no deprecation the result is the empty string, and
    in every case such a default leaves the block as it is without any
    default, so no [@default] line is produced for it. *)
Theorem descriptionToComment_presence (desc : Commentable) (tab : string) :
  (descriptionToComment wrap desc tab ≠ "" ↔
     truthyDefault (c_defaultValue desc) = true
     ∨ truthy (c_description desc) = true
     ∨ c_isDeprecated desc = true) ∧
  ((c_defaultValue desc = DefaultNumber 0 ∨ c_defaultValue desc = DefaultString "") →
     truthy (c_description desc) = false → c_isDeprecated desc = false →
     descriptionToComment wrap desc tab = "") ∧
  ((c_defaultValue desc = DefaultNumber 0 ∨ c_defaultValue desc = DefaultString "") →
     descriptionToComment wrap desc tab
     = descriptionToComment wrap
         (mkCommentable DefaultAbsent (c_description desc)
            (c_isDeprecated desc) (c_deprecationReason desc)) tab).
Proof.
  split; [split|split].
  - intros Hne.
    destruct (truthyDefault (c_defaultValue desc)) eqn:E1; [now left|].
    destruct (truthy (c_description desc)) eqn:E2; [now right; left|].
    destruct (c_isDeprecated desc) eqn:E3; [now right; right|].
    exfalso. apply Hne. now apply descriptionToComment_absent.
  - intros H. apply descriptionToComment_present.
    destruct H as [-> | [-> | ->]]; rewrite ?orb_true_r; reflexivity.
  - intros Hd Hdesc Hdep. apply descriptionToComment_absent; [|assumption..].
    now destruct Hd as [-> | ->].
  - intros Hd. unfold descriptionToComment; simpl.
    now destruct Hd as [-> | ->].
Qed.

(** C9. An input value whose description is empty ([null] or the empty
    string) is rendered as the blank separator and its member line alone:
    the synthesizer is not called, whatever the default value, although
    for a truthy default it would return a block with the [@default]
    line. *)
Theorem inputValueToDefinition_no_comment (arg : InputValue) :
  truthy (iv_description arg) = false →
  inputValueToDefinition EOL wrap arg
  = (ref ← refToDefinition (iv_type arg) false;
     Ok (EOL +:+ TAB +:+ iv_name arg
         +:+ (if decide (ref_kind (iv_type arg) = NON_NULL) then ": " else "?: ")
         +:+ ref +:+ ";")) ∧
  inputValueToDefinition EOL wrap arg
  = inputValueToDefinition EOL wrap
      (mkInputValue (iv_name arg) (iv_description arg) DefaultAbsent (iv_type arg)) ∧
  (truthyDefault (iv_defaultValue arg) = true →
   descriptionToComment wrap (ofInputValue arg) TAB
   = join LF [ beginComment TAB;
               toComment wrap ("@default " +:+ defaultToString (iv_defaultValue arg)) TAB;
               endComment TAB ]).
Proof.
  intros Hdesc. unfold inputValueToDefinition. simpl. rewrite Hdesc.
  repeat split.
  intros Hdef. unfold descriptionToComment, ofInputValue. simpl.
  now rewrite Hdef, Hdesc.
Qed.

End Comments.

Lemma descriptionToComment_presence_witness :
  descriptionToComment indentOnly (mkCommentable (DefaultNumber 0) None false None) TAB = "".
Proof.
  exact (proj1 (proj2 (descriptionToComment_presence indentOnly
           (mkCommentable (DefaultNumber 0) None false None) TAB))
           (or_introl eq_refl) eq_refl eq_refl).
Defined.

Lemma inputValueToDefinition_no_comment_witness :
  truthy (iv_description defaultOnlyArg) = false ∧
  inputValueToDefinition LF indentOnly defaultOnlyArg
  = Ok (LF +:+ "    limit?: Optional<Int>;").
Proof.
  split; [reflexivity|].
  apply (inputValueToDefinition_no_comment LF indentOnly defaultOnlyArg).
  reflexivity.
Defined.

(** ** The sort *)

Section Sorting.

Context {A : Type} (comparefn : A → A → result jsnumber).

Lemma insertSorted_Permutation (e : A) (p p' : list A) :
  insertSorted comparefn e p = Ok p' → p' ≡ₚ e :: p.
Proof.
  revert p'. induction p as [|tmp rest IH]; simpl; intros p' H.
  - now injection H as <-.
  - inv_bind H. destruct (isPositive a).
    + inv_bind H. injection H as <-. rewrite (IH _ Ha0). apply perm_swap.
    + now injection H as <-.
Qed.

Lemma insertionSort_Permutation (p a l : list A) :
  insertionSort comparefn p a = Ok l → l ≡ₚ p ++ a.
Proof.
  revert p l. induction a as [|e rest IH]; simpl; intros p l H.
  - injection H as <-. rewrite app_nil_r. symmetry. apply Permutation_rev.
  - inv_bind H. rewrite (IH _ _ H), (insertSorted_Permutation _ _ _ Ha).
    simpl. apply Permutation_middle.
Qed.

Lemma insertSorted_head (e : A) (p p' : list A) :
  insertSorted comparefn e p = Ok p' →
  (∃ tl, p' = e :: tl) ∨ (∃ h t t', p = h :: t ∧ p' = h :: t').
Proof.
  destruct p as [|tmp rest]; simpl; intros H.
  - injection H as <-. left. eauto.
  - inv_bind H. destruct (isPositive a).
    + inv_bind H. injection H as <-. right. eauto.
    + injection H as <-. left. eauto.
Qed.

Section Antisymmetric.

Hypothesis positive_flips :
  ∀ x y order, comparefn y x = Ok order → isPositive order = true →
               staysBefore comparefn x y.

Lemma insertSorted_Sorted (e : A) (p p' : list A) :
  Sorted (flip (staysBefore comparefn)) p →
  insertSorted comparefn e p = Ok p' →
  Sorted (flip (staysBefore comparefn)) p'.
Proof.
  revert p'. induction p as [|tmp rest IH]; simpl; intros p' Hs H.
  - injection H as <-. repeat constructor.
  - inv_bind H. destruct (isPositive a) eqn:Hpos.
    + inv_bind H. injection H as <-.
      apply Sorted_inv in Hs as [Hs Hhd].
      constructor; [eauto|].
      destruct (insertSorted_head _ _ _ Ha0) as [[tl ->] | (h & t & t' & -> & ->)].
      * constructor. unfold flip. eauto.
      * constructor. now apply HdRel_inv in Hhd.
    + injection H as <-. constructor; [assumption|].
      constructor. unfold flip, staysBefore. eauto.
Qed.

Lemma insertionSort_Sorted (p a l : list A) :
  Sorted (flip (staysBefore comparefn)) p →
  insertionSort comparefn p a = Ok l →
  Sorted (staysBefore comparefn) l.
Proof.
  revert p l. induction a as [|e rest IH]; simpl; intros p l Hs H.
  - injection H as <-. rewrite rev_alt.
    apply (Sorted_reverse (flip (staysBefore comparefn))) in Hs. exact Hs.
  - inv_bind H. eauto using insertSorted_Sorted.
Qed.

End Antisymmetric.

(** Sorting an array whose neighbours already stay in front of each other
    moves nothing. *)
Lemma insertionSort_fixpoint (p a : list A) :
  Sorted (staysBefore comparefn) a →
  (∀ h x, head p = Some h → head a = Some x → staysBefore comparefn h x) →
  insertionSort comparefn p a = Ok (rev p ++ a).
Proof.
  revert p. induction a as [|x rest IH]; simpl; intros p Hs Hlink.
  - now rewrite app_nil_r.
  - apply Sorted_inv in Hs as [Hs Hhd].
    assert (insertSorted comparefn x p = Ok (x :: p)) as ->.
    { destruct p as [|h t]; [reflexivity|]. simpl.
      destruct (Hlink h x eq_refl eq_refl) as (order & -> & Hpos).
      simpl. now rewrite Hpos. }
    simpl. rewrite IH; [simpl; now rewrite <- app_assoc | assumption |].
    intros h y [= <-] Hy. destruct rest; [discriminate|].
    injection Hy as <-. now apply HdRel_inv in Hhd.
Qed.

(** When the comparator answers for all the elements, the sort returns. *)
Lemma insertSorted_total (good : A → Prop) (e : A) (p : list A) :
  (∀ x y, good x → good y → ∃ order, comparefn x y = Ok order) →
  good e → Forall good p → ∃ p', insertSorted comparefn e p = Ok p'.
Proof.
  intros Hgood He. induction 1 as [|tmp rest Htmp Hrest IH]; simpl; [eauto|].
  destruct (Hgood tmp e Htmp He) as [order ->]. simpl.
  destruct (isPositive order); [|eauto].
  destruct IH as [moved ->]. simpl. eauto.
Qed.

Lemma insertionSort_total (good : A → Prop) (p a : list A) :
  (∀ x y, good x → good y → ∃ order, comparefn x y = Ok order) →
  Forall good p → Forall good a → ∃ l, insertionSort comparefn p a = Ok l.
Proof.
  intros Hgood Hp Ha. revert p Hp.
  induction Ha as [|e rest He Hrest IH]; simpl; intros p Hp; [eauto|].
  destruct (insertSorted_total good e p Hgood He Hp) as [p' Hp'].
  rewrite Hp'. simpl. apply IH.
  apply insertSorted_Permutation in Hp'. rewrite Hp'. now constructor.
Qed.

End Sorting.

(** An element the comparator cannot read makes the sort throw as soon as
    the array has a second element to compare it with. *)
Section Unreadable.

Context {A : Type} (comparefn : A → A → result jsnumber) (bad : A → Prop).

Hypothesis throws_TypeError :
  ∀ x y e, comparefn x y = Throw e → ∃ msg, e = TypeError msg.
Hypothesis bad_throws :
  ∀ x y, bad x ∨ bad y → ∃ e, comparefn x y = Throw e.

Lemma insertSorted_throws (e : A) (p : list A) (err : exn) :
  insertSorted comparefn e p = Throw err → ∃ msg, err = TypeError msg.
Proof.
  induction p as [|tmp rest IH]; simpl; [discriminate|].
  destruct (comparefn tmp e) as [order|e'] eqn:Hc; simpl.
  - destruct (isPositive order); [|discriminate].
    destruct (insertSorted comparefn e rest); simpl; [discriminate|].
    intros [= <-]. now apply IH.
  - intros [= <-]. eauto.
Qed.

Lemma insertionSort_throws (p a : list A) (err : exn) :
  insertionSort comparefn p a = Throw err → ∃ msg, err = TypeError msg.
Proof.
  revert p. induction a as [|e rest IH]; simpl; intros p; [discriminate|].
  destruct (insertSorted comparefn e p) as [p'|err'] eqn:Hins; simpl.
  - apply IH.
  - intros [= <-]. eapply insertSorted_throws, Hins.
Qed.

Lemma insertionSort_unreadable (p a : list A) :
  (length p ≤ 1)%nat ∨ Forall (λ x, ¬ bad x) p →
  Exists bad (p ++ a) → (2 ≤ length (p ++ a))%nat →
  ∃ msg, insertionSort comparefn p a = Throw (TypeError msg).
Proof.
  revert p. induction a as [|e rest IH]; simpl; intros p Hinv Hbad Hlen.
  - rewrite app_nil_r in *. destruct Hinv as [Hinv | Hinv]; [lia|].
    exfalso. apply Exists_exists in Hbad as (x & Hx & Hb).
    rewrite Forall_forall in Hinv. now apply (Hinv x).
  - destruct (insertSorted comparefn e p) as [p'|err] eqn:Hins; simpl.
    + pose proof (insertSorted_Permutation _ _ _ _ Hins) as Hperm.
      apply IH.
      * destruct p as [|tmp p0]; [left; simpl in Hins; injection Hins as <-; simpl; lia|].
        right. rewrite Hperm.
        simpl in Hins.
        destruct (comparefn tmp e) as [order|] eqn:Hc; [|discriminate].
        assert (¬ bad tmp ∧ ¬ bad e) as [Htmp He].
        { split; intros Hb; destruct (bad_throws tmp e) as [e' He']; auto; congruence. }
        constructor; [assumption|].
        destruct Hinv as [Hinv | Hinv]; [|assumption].
        destruct p0; [|simpl in Hinv; lia]. now repeat constructor.
      * rewrite Hperm. simpl. rewrite Exists_exists in *.
        destruct Hbad as (x & Hx & Hb). exists x. split; [|assumption].
        rewrite elem_of_app, elem_of_cons in Hx.
        rewrite elem_of_cons, elem_of_app. tauto.
      * rewrite Hperm. simpl. rewrite length_app in *. simpl in Hlen. lia.
    + destruct (insertSorted_throws _ _ _ Hins) as [msg ->]. eauto.
Qed.

End Unreadable.

(** ** The comparator and the in-place sort of [schema.types] *)

Lemma filter_partition {A} (f : A → bool) (l : list A) :
  List.filter (λ x, negb (f x)) l ++ List.filter f l ≡ₚ l.
Proof.
  induction l as [|x l IH]; simpl; [reflexivity|].
  destruct (f x); simpl.
  - rewrite <- Permutation_middle. now constructor.
  - now constructor.
Qed.

Lemma filter_all {A} (f : A → bool) (l : list A) :
  Forall (λ x, f x = true) l → List.filter f l = l.
Proof. induction 1 as [|x l Hx _ IH]; simpl; [reflexivity|]. now rewrite Hx, IH. Qed.

Lemma filter_none {A} (f : A → bool) (l : list A) :
  Forall (λ x, f x = false) l → List.filter f l = [].
Proof. induction 1 as [|x l Hx _ IH]; simpl; [reflexivity|]. now rewrite Hx. Qed.

Lemma Forall_filter {A} (f : A → bool) (l : list A) :
  Forall (λ x, f x = true) (List.filter f l).
Proof.
  induction l as [|x l IH]; simpl; [constructor|].
  destruct (f x) eqn:E; [now constructor | assumption].
Qed.



Section Ordering.

Variable localeCompare : string → string → Z.

Lemma compareTypes_throws (x y : Entry) (e : exn) :
  compareTypes localeCompare x y = Throw e → ∃ msg, e = TypeError msg.
Proof.
  unfold compareTypes.
  destruct x as [| |a]; simpl; try (intros [= <-]; eauto; fail).
  destruct y as [| |b]; simpl; try (intros [= <-]; eauto; fail).
  now destruct (decide (kind a = kind b)).
Qed.

Lemma compareTypes_unreadable (x y : Entry) :
  isTruthy x = false ∨ isTruthy y = false →
  ∃ e, compareTypes localeCompare x y = Throw e.
Proof.
  unfold compareTypes.
  destruct x as [| |a]; simpl; eauto.
  destruct y as [| |b]; simpl; eauto.
  intros [H | H]; discriminate.
Qed.

Lemma compareTypes_answers (x y : Entry) :
  isTruthy x = true → isTruthy y = true →
  ∃ order, compareTypes localeCompare x y = Ok order.
Proof.
  destruct x as [| |a]; try discriminate. destruct y as [| |b]; try discriminate.
  intros _ _. unfold compareTypes. simpl.
  destruct (decide (kind a = kind b)); eauto.
Qed.

Lemma compareTypes_positive_flips :
  antisymmetricCompare localeCompare →
  ∀ x y order, compareTypes localeCompare y x = Ok order →
               isPositive order = true →
               staysBefore (compareTypes localeCompare) x y.
Proof.
  intros Hanti x y order H Hpos.
  destruct y as [| |b]; try discriminate. destruct x as [| |a]; try discriminate.
  unfold staysBefore, compareTypes in *. simpl in *.
  destruct (decide (kind b = kind a)) as [E | E].
  - injection H as <-. simpl in Hpos. apply Z.ltb_lt in Hpos.
    rewrite decide_True by congruence.
    eexists; split; [reflexivity|]. simpl. apply Z.ltb_ge.
    specialize (Hanti (name b) (name a)). lia.
  - rewrite decide_False by congruence.
    destruct (TypeOrder (kind b)) as [i|], (TypeOrder (kind a)) as [j|];
      simpl in H; injection H as <-; try discriminate.
    simpl in Hpos. apply Z.ltb_lt in Hpos.
    eexists; split; [reflexivity|]. simpl. apply Z.ltb_ge. lia.
Qed.

Lemma arraySort_Permutation (a l : list Entry) :
  arraySort (compareTypes localeCompare) a = Ok l → l ≡ₚ a.
Proof.
  unfold arraySort. intros H. inv_bind H. injection H as <-.
  apply insertionSort_Permutation in Ha. simpl in Ha. rewrite Ha.
  apply filter_partition.
Qed.

(** The array the sort returns is one the sort leaves as it is. *)
Lemma arraySort_fixpoint (a l : list Entry) :
  antisymmetricCompare localeCompare →
  arraySort (compareTypes localeCompare) a = Ok l →
  arraySort (compareTypes localeCompare) l = Ok l.
Proof.
  intros Hanti H. unfold arraySort in *. inv_bind H. injection H as <-.
  rename a0 into sorted.
  assert (Forall (λ e, negb (isUndefined e) = true) sorted) as Hdef.
  { apply insertionSort_Permutation in Ha. simpl in Ha. rewrite Ha.
    apply Forall_filter. }
  assert (Forall (λ e, isUndefined e = true) (List.filter isUndefined a)) as Hund
    by apply Forall_filter.
  rewrite !List.filter_app.
  rewrite (filter_all _ sorted Hdef), (filter_all _ _ Hund).
  rewrite (filter_none (λ e, negb (isUndefined e)) (List.filter isUndefined a)).
  2:{ eapply Forall_impl; [exact Hund|]. simpl. now intros e ->. }
  rewrite (filter_none isUndefined sorted).
  2:{ eapply Forall_impl; [exact Hdef|]. simpl. intros e. now destruct (isUndefined e). }
  rewrite app_nil_r. simpl.
  rewrite insertionSort_fixpoint; [reflexivity| |discriminate].
  eapply insertionSort_Sorted; [|constructor|exact Ha].
  now apply compareTypes_positive_flips.
Qed.

Lemma arraySort_throws (a : list Entry) (e : exn) :
  arraySort (compareTypes localeCompare) a = Throw e → ∃ msg, e = TypeError msg.
Proof.
  unfold arraySort.
  destruct (insertionSort _ _ _) as [|e'] eqn:Hi; simpl; [discriminate|].
  intros [= <-]. eapply insertionSort_throws, Hi. apply compareTypes_throws.
Qed.

Lemma Null_elem_dec (a : list Entry) : Null ∈ a ∨ Null ∉ a.
Proof.
  induction a as [|x a [IH | IH]].
  - right. apply not_elem_of_nil.
  - left. now constructor.
  - destruct x; [right | left; constructor | right];
      intros [? | ?]%elem_of_cons; try discriminate; contradiction.
Qed.

(** With no [null] in the array the sort returns. *)
Lemma arraySort_total (a : list Entry) :
  Null ∉ a → ∃ l, arraySort (compareTypes localeCompare) a = Ok l.
Proof.
  intros Hnull. unfold arraySort.
  destruct (insertionSort_total (compareTypes localeCompare)
              (λ e, isTruthy e = true) []
              (List.filter (λ e, negb (isUndefined e)) a)) as [l ->]; simpl; eauto.
  - intros x y. apply compareTypes_answers.
  - apply Forall_forall. intros x Hx. apply list_elem_of_In, filter_In in Hx as [Hx Hu].
    destruct x; try discriminate; [|reflexivity].
    exfalso. now apply Hnull, list_elem_of_In.
Qed.

(** A [null] next to any other defined element makes the comparator, and
    with it the sort, throw a [TypeError]. *)
Lemma arraySort_null (a : list Entry) :
  Null ∈ a →
  (2 ≤ length (List.filter (λ e, negb (isUndefined e)) a))%nat →
  ∃ msg, arraySort (compareTypes localeCompare) a = Throw (TypeError msg).
Proof.
  intros Hnull Hlen. unfold arraySort.
  assert (Exists (λ e, isTruthy e = false)
            ([] ++ List.filter (λ e, negb (isUndefined e)) a)) as Hbad.
  { apply Exists_exists. exists Null. split; [|reflexivity].
    apply list_elem_of_In, filter_In. split; [now apply list_elem_of_In | reflexivity]. }
  destruct (insertionSort_unreadable (compareTypes localeCompare)
              (λ e, isTruthy e = false) compareTypes_throws compareTypes_unreadable
              [] (List.filter (λ e, negb (isUndefined e)) a)
              (or_introl (Nat.le_0_l 1)) Hbad Hlen) as [msg ->].
  simpl. eauto.
Qed.

End Ordering.

(** ** The work queue *)

Section Queue.

Variable EOL : string.
Variable wrap : string → nat → string → string.
Variable inspect : string → string.
Variable localeCompare : string → string → Z.

Lemma pushType_known (alias : gmap string string) (acc : list Task) (t : SchemaType) :
  knownKind (kind t) →
  ∃ task : Task, pushType EOL wrap inspect alias acc (Obj t) = Ok (acc ++ [task])
                 ∧ task tt = definitionOf EOL wrap inspect alias t.
Proof.
  unfold knownKind. rewrite !elem_of_cons, elem_of_nil.
  unfold pushType, definitionOf. intros Hk.
  repeat case_decide; eauto. exfalso. tauto.
Qed.

Lemma pushType_unknown (alias : gmap string string) (acc : list Task) (t : SchemaType) :
  ¬ knownKind (kind t) →
  pushType EOL wrap inspect alias acc (Obj t) = Throw (Error ("Unexpected type: " +:+ kind t)).
Proof.
  unfold knownKind. rewrite !elem_of_cons, elem_of_nil.
  unfold pushType. intros Hk.
  repeat case_decide; try reflexivity; exfalso; tauto.
Qed.

Lemma forEach_pushType_Ok (alias : gmap string string) (l : list Entry)
    (acc q : list Task) :
  forEach (pushType EOL wrap inspect alias) l acc = Ok q →
  ∃ tasks, q = acc ++ tasks ∧
    Forall2 (λ (task : Task) t,
               knownKind (kind t) ∧ task tt = definitionOf EOL wrap inspect alias t)
            tasks (objects l).
Proof.
  revert acc q. induction l as [|e l IH]; simpl; intros acc q H.
  - injection H as <-. exists []. rewrite app_nil_r. split; [reflexivity | constructor].
  - inv_bind H. destruct e as [| |t].
    + injection Ha as <-. now apply IH.
    + injection Ha as <-. now apply IH.
    + destruct (decide (knownKind (kind t))) as [Hk | Hk].
      * destruct (pushType_known alias acc t Hk) as (task & Hpush & Htask).
        rewrite Hpush in Ha. injection Ha as <-.
        destruct (IH _ _ H) as (tasks & -> & Hall).
        exists (task :: tasks). rewrite <- app_assoc. split; [reflexivity|].
        now constructor.
      * rewrite (pushType_unknown alias acc t Hk) in Ha. discriminate.
Qed.

Lemma forEach_pushType_Throw (alias : gmap string string) (l : list Entry)
    (acc : list Task) (e : exn) :
  forEach (pushType EOL wrap inspect alias) l acc = Throw e →
  ∃ t, Obj t ∈ l ∧ ¬ knownKind (kind t)
       ∧ e = Error ("Unexpected type: " +:+ kind t).
Proof.
  revert acc. induction l as [|x l IH]; intros acc H; [discriminate|].
  cbn [forEach] in H. destruct x as [| |t].
  - destruct (IH _ H) as (t & ? & ? & ?). exists t. rewrite elem_of_cons. eauto.
  - destruct (IH _ H) as (t & ? & ? & ?). exists t. rewrite elem_of_cons. eauto.
  - destruct (decide (knownKind (kind t))) as [Hk | Hk].
    + destruct (pushType_known alias acc t Hk) as (task & Hpush & _).
      rewrite Hpush in H. simpl in H.
      destruct (IH _ H) as (t' & ? & ? & ?). exists t'. rewrite elem_of_cons. eauto.
    + rewrite (pushType_unknown alias acc t Hk) in H. injection H as <-.
      exists t. rewrite elem_of_cons. eauto.
Qed.

Lemma elem_of_objects (t : SchemaType) (l : list Entry) :
  t ∈ objects l ↔ Obj t ∈ l.
Proof.
  unfold objects. rewrite list_elem_of_omap. split.
  - intros (x & Hx & Hsome). destruct x; try discriminate. now injection Hsome as ->.
  - intros H. exists (Obj t). eauto.
Qed.

(** The shape of a queue that was built: the sorted array, the two
    preamble units, then one task per entity of the sorted array, each of
    a known kind and returning the block of its kind. *)
Lemma createSchemaDefinitionQueue_Ok (schema : Schema) (alias : gmap string string)
    (types' : list Entry) (q : list Task) :
  createSchemaDefinitionQueue EOL wrap inspect localeCompare schema alias = Ok (types', q) →
  arraySort (compareTypes localeCompare) (types schema) = Ok types' ∧
  ∃ tasks,
    q = (λ _, Ok (utilDefinition EOL))
        :: (λ _, Ok (responseDefinition EOL (responseTypesOf schema ++ ["null"])))
        :: tasks ∧
    Forall2 (λ (task : Task) t,
               knownKind (kind t) ∧
               task tt = definitionOf EOL wrap inspect (objectAssign ∅ [alias; standardAlias]) t)
            tasks (objects types').
Proof.
  unfold createSchemaDefinitionQueue. intros H.
  inv_bind H. inv_bind H. injection H as <- <-.
  split; [assumption|].
  apply forEach_pushType_Ok in Ha0 as (tasks & -> & Hall). eauto.
Qed.

Lemma createSchemaDefinitionQueue_Throw (schema : Schema) (alias : gmap string string)
    (e : exn) :
  createSchemaDefinitionQueue EOL wrap inspect localeCompare schema alias = Throw e →
  (∃ msg, e = TypeError msg ∧ Null ∈ types schema) ∨
  (∃ t, Obj t ∈ types schema ∧ ¬ knownKind (kind t)
        ∧ e = Error ("Unexpected type: " +:+ kind t)).
Proof.
  unfold createSchemaDefinitionQueue. intros H.
  destruct (arraySort (compareTypes localeCompare) (types schema)) as [sorted|e'] eqn:Hs;
    simpl in H.
  - right. pose proof (arraySort_Permutation _ _ _ Hs) as Hperm.
    destruct (forEach _ sorted _) as [q|e''] eqn:Hf; simpl in H; [discriminate|].
    injection H as <-.
    apply forEach_pushType_Throw in Hf as (t & Ht & Hk & ->).
    exists t. rewrite <- Hperm. eauto.
  - left. injection H as <-.
    destruct (arraySort_throws _ _ _ Hs) as [msg ->]. exists msg. split; [reflexivity|].
    destruct (Null_elem_dec (types schema)) as [Hn | Hn]; [assumption|].
    destruct (arraySort_total localeCompare _ Hn) as [l Hl]. congruence.
Qed.

(** *** Emission order *)






Lemma Forall2_knownKind {T} (P : T → SchemaType → Prop) (tasks : list T)
    (ts : list SchemaType) :
  Forall2 (λ task t, knownKind (kind t) ∧ P task t) tasks ts →
  Forall (λ t, knownKind (kind t)) ts ∧ Forall2 P tasks ts.
Proof.
  induction 1 as [|task t tasks ts [Hk HP] _ [IH1 IH2]]; split; constructor; auto.
Qed.

Lemma forEach_pushType_total (alias : gmap string string) (l : list Entry)
    (acc : list Task) :
  Forall (λ t, knownKind (kind t)) (objects l) →
  ∃ q, forEach (pushType EOL wrap inspect alias) l acc = Ok q.
Proof.
  intros Hk. destruct (forEach _ l acc) as [q | e] eqn:Hf; [eauto|].
  apply forEach_pushType_Throw in Hf as (t & Ht & Hnk & _).
  exfalso. apply Hnk. rewrite Forall_forall in Hk. now apply Hk, elem_of_objects.
Qed.







End Queue.

(** ** The emitter *)

Lemma objectAssign_lookup (alias : gmap string string) (n : string) :
  objectAssign ∅ [alias; standardAlias] !! n
  = if decide (builtinScalar n) then standardAlias !! n else alias !! n.
Proof.
  unfold objectAssign. simpl. rewrite (right_id ∅ (∪) alias).
  unfold builtinScalar. case_decide as Hn.
  - rewrite !elem_of_cons, elem_of_nil in Hn.
    destruct Hn as [-> | [-> | [-> | [-> | []]]]];
      (erewrite lookup_union_Some_l; reflexivity).
  - rewrite !elem_of_cons, elem_of_nil in Hn.
    apply lookup_union_r. unfold standardAlias.
    rewrite !lookup_insert_ne, lookup_singleton_ne; [reflexivity | intros <-; tauto ..].
Qed.

Lemma getProperty_merged (alias : gmap string string) (n : string) :
  getProperty (objectAssign ∅ [alias; standardAlias]) n
  = if decide (builtinScalar n) then getProperty standardAlias n
    else getProperty alias n.
Proof.
  unfold getProperty. rewrite objectAssign_lookup.
  case_decide as Hn; [|reflexivity].
  unfold builtinScalar in Hn. rewrite !elem_of_cons, elem_of_nil in Hn.
  destruct Hn as [-> | [-> | [-> | [-> | []]]]]; reflexivity.
Qed.

Section Emitter.

Variable EOL : string.
Variable wrap : string → nat → string → string.
Variable inspect : string → string.
Variable localeCompare : string → string → Z.

(** C1, as amended. Whatever alias table the caller supplies, the block of
    a SCALAR entity named Boolean, Int, Float or String is rendered with the
    built-in alias (boolean, number, number, string); for any other name it
    is rendered with what the caller's table holds under that name. The
    caller extends the built-in table and cannot override it. *)
Theorem scalar_alias_precedence (schema : Schema) (alias : gmap string string)
    (types' : list Entry) (q : list Task) (t : SchemaType) :
  createSchemaDefinitionQueue EOL wrap inspect localeCompare schema alias = Ok (types', q) →
  Obj t ∈ types schema → kind t = SCALAR →
  (∃ task : Task, task ∈ q ∧
     task tt = Ok (scalarToDefinition EOL wrap inspect t
                     (if decide (builtinScalar (name t))
                      then getProperty standardAlias (name t)
                      else getProperty alias (name t)))) ∧
  getProperty standardAlias "Boolean" = Own "boolean" ∧
  getProperty standardAlias "Int" = Own "number" ∧
  getProperty standardAlias "Float" = Own "number" ∧
  getProperty standardAlias "String" = Own "string".
Proof.
  intros H Ht Hk. split; [|repeat split].
  apply createSchemaDefinitionQueue_Ok in H as (Hsort & tasks & -> & Hall).
  rewrite <- (arraySort_Permutation _ _ _ Hsort) in Ht.
  apply elem_of_objects, list_elem_of_lookup in Ht as [i Hi].
  destruct (Forall2_lookup_r _ _ _ _ _ Hall Hi) as (task & Htask & _ & Hrun).
  exists task. split.
  - rewrite !elem_of_cons. right. right. eapply list_elem_of_lookup_2, Htask.
  - rewrite Hrun. unfold definitionOf. rewrite decide_True by assumption.
    now rewrite getProperty_merged.
Qed.

Lemma createSchemaDefinitionQueue_again (schema : Schema) (alias : gmap string string)
    (types' : list Entry) (q : list Task) :
  antisymmetricCompare localeCompare →
  createSchemaDefinitionQueue EOL wrap inspect localeCompare schema alias = Ok (types', q) →
  createSchemaDefinitionQueue EOL wrap inspect localeCompare (withTypes schema types') alias
  = Ok (types', q).
Proof.
  intros Hanti H. unfold createSchemaDefinitionQueue in *.
  inv_bind H. inv_bind H. injection H as <- <-.
  change (types (withTypes schema a)) with a.
  rewrite (arraySort_fixpoint _ _ _ Hanti Ha). simpl.
  change (responseTypesOf (withTypes schema a)) with (responseTypesOf schema).
  simpl in Ha0. now rewrite Ha0.
Qed.


(** C6. A second translation of the same schema object with the same
    alias table, that is, of the object as the first translation left it,
    with its array sorted, returns the same string, and leaves the array as
    it found it. The host's [localeCompare] is assumed antisymmetric. *)
Theorem translation_idempotent (schema : Schema) (alias : gmap string string)
    (types' : list Entry) (out : string) :
  antisymmetricCompare localeCompare →
  schemaToDefinition EOL wrap inspect localeCompare schema alias = Ok (types', out) →
  schemaToDefinition EOL wrap inspect localeCompare (withTypes schema types') alias
  = Ok (types', out).
Proof.
  intros Hanti H. unfold schemaToDefinition in *.
  inv_bind H. destruct a as [sorted q]. inv_bind H. injection H as <- <-.
  rewrite (createSchemaDefinitionQueue_again _ _ _ _ Hanti Ha). simpl.
  now rewrite Ha0.
Qed.

(** *** Entries that are not entities *)

(** An entity of unknown kind is never skipped: the queue is not built,
    and when the array holds no [null] the error is the builder's own and
    names the kind of such an entity. *)
Lemma unknown_kind_fatal (schema : Schema) (alias : gmap string string)
    (t : SchemaType) :
  Obj t ∈ types schema → ¬ knownKind (kind t) →
  ∃ e, createSchemaDefinitionQueue EOL wrap inspect localeCompare schema alias = Throw e ∧
       ((∃ msg, e = TypeError msg ∧ Null ∈ types schema) ∨
        (∃ t', Obj t' ∈ types schema ∧ ¬ knownKind (kind t')
               ∧ e = Error ("Unexpected type: " +:+ kind t'))).
Proof.
  intros Ht Hk.
  destruct (createSchemaDefinitionQueue EOL wrap inspect localeCompare schema alias)
    as [[types' q] | e] eqn:H.
  - exfalso. apply createSchemaDefinitionQueue_Ok in H as (Hsort & tasks & -> & Hall).
    apply Forall2_knownKind in Hall as [Hknown _].
    rewrite Forall_forall in Hknown. apply Hk, Hknown, elem_of_objects.
    now rewrite (arraySort_Permutation _ _ _ Hsort).
  - exists e. split; [reflexivity|]. eapply createSchemaDefinitionQueue_Throw, H.
Qed.

(** The builder's own error is thrown for an entity of unknown kind only. *)
Lemma unexpected_type_only_for_entities (schema : Schema) (alias : gmap string string)
    (msg : string) :
  createSchemaDefinitionQueue EOL wrap inspect localeCompare schema alias = Throw (Error msg) →
  ∃ t, Obj t ∈ types schema ∧ ¬ knownKind (kind t)
       ∧ msg = "Unexpected type: " +:+ kind t.
Proof.
  intros H.
  destruct (createSchemaDefinitionQueue_Throw _ _ _ _ _ _ _ H)
    as [(m & Hm & _) | (t & ? & ? & Hm)]; [discriminate|].
  injection Hm as ->. eauto.
Qed.

(** A [null] entry next to another defined entry is not dropped: the
    comparator reads its [kind] and the call throws. *)
Lemma null_entry_throws (schema : Schema) (alias : gmap string string) :
  Null ∈ types schema →
  (2 ≤ length (List.filter (λ e, negb (isUndefined e)) (types schema)))%nat →
  ∃ msg, createSchemaDefinitionQueue EOL wrap inspect localeCompare schema alias
         = Throw (TypeError msg).
Proof.
  intros Hn Hlen. unfold createSchemaDefinitionQueue.
  destruct (arraySort_null localeCompare _ Hn Hlen) as [msg ->]. simpl. eauto.
Qed.

Lemma forEach_pushType_undefined (alias : gmap string string) (l u : list Entry)
    (acc : list Task) :
  Forall (λ e, isUndefined e = true) u →
  forEach (pushType EOL wrap inspect alias) (l ++ u) acc
  = forEach (pushType EOL wrap inspect alias) l acc.
Proof.
  intros Hu. revert acc. induction l as [|x l IH]; intros acc.
  - simpl. induction Hu as [|e u He _ IHu]; [reflexivity|].
    destruct e; try discriminate. exact IHu.
  - cbn [app forEach]. destruct (pushType EOL wrap inspect alias acc x); simpl; [apply IH | reflexivity].
Qed.

(** An [undefined] entry is dropped: the queue is the one built from the
    array without its [undefined] entries. *)
Lemma undefined_entries_dropped (schema : Schema) (alias : gmap string string) :
  queueOf (createSchemaDefinitionQueue EOL wrap inspect localeCompare schema alias)
  = queueOf (createSchemaDefinitionQueue EOL wrap inspect localeCompare
               (withTypes schema
                  (List.filter (λ e, negb (isUndefined e)) (types schema))) alias).
Proof.
  unfold createSchemaDefinitionQueue, arraySort.
  change (types (withTypes schema ?a)) with a.
  change (responseTypesOf (withTypes schema ?a)) with (responseTypesOf schema).
  rewrite (filter_all (λ e, negb (isUndefined e)) (List.filter _ _)) by apply Forall_filter.
  rewrite (filter_none isUndefined (List.filter (λ e, negb (isUndefined e)) _)).
  2:{ eapply Forall_impl; [apply Forall_filter|]. simpl. intros e.
      now destruct (isUndefined e). }
  destruct (insertionSort _ _ _) as [sorted|e]; simpl; [|reflexivity].
  rewrite app_nil_r.
  rewrite forEach_pushType_undefined by apply Forall_filter.
  now destruct (forEach _ sorted _).
Qed.

(** C7. The schema whose [types] are [null] and an entity of the unknown
    kind FOO: the comparator of the sort reads [kind] of [null] and the
    translation ends with the engine's [TypeError], which does not name
    FOO, in the emitter and in its earlier revision alike; without the
    [null] the error is [Unexpected type: FOO]. *)
Theorem unknown_kind_behind_null :
  schemaToDefinition EOL wrap inspect localeCompare (schemaOf unknownBehindNull) ∅
  = Throw (TypeError "Cannot read property 'kind' of null") ∧
  Part004.schemaToDefinition EOL wrap inspect localeCompare (schemaOf unknownBehindNull) ∅
  = Throw (TypeError "Cannot read property 'kind' of null") ∧
  schemaToDefinition EOL wrap inspect localeCompare (schemaOf [Obj (plainType "FOO" "X")]) ∅
  = Throw (Error "Unexpected type: FOO").
Proof. repeat split. Qed.

(** The schema whose [types] are [null] and the scalar A, run: the call
    throws in the emitter and in its earlier revision alike; alone in the
    array the [null] is dropped, and so are [undefined] entries. *)
Lemma null_entry_runs :
  queueOf (createSchemaDefinitionQueue EOL wrap inspect localeCompare
             (schemaOf scalarBehindNull) ∅)
  = Throw (TypeError "Cannot read property 'kind' of null") ∧
  Part004.schemaToDefinition EOL wrap inspect localeCompare (schemaOf scalarBehindNull) ∅
  = Throw (TypeError "Cannot read property 'kind' of null") ∧
  is_Ok (createSchemaDefinitionQueue EOL wrap inspect localeCompare (schemaOf [Null]) ∅)
  = true ∧
  is_Ok (createSchemaDefinitionQueue EOL wrap inspect localeCompare
           (schemaOf [Undefined; Obj (plainType SCALAR "A"); Undefined]) ∅) = true.
Proof. repeat split. Qed.

(** C10. A [null] entry is not dropped by the truthiness guard as soon as
    the array holds a second defined entry: the sort in front of the guard
    hands [null] to the comparator, which reads its [kind], and the call
    throws a [TypeError]. The rest holds: [undefined] entries are dropped
    (the queue is the one of the array without them), and the builder's
    own error is thrown only for an entity of unknown kind. *)
Theorem null_entry_not_dropped (schema : Schema) (alias : gmap string string) :
  (Null ∈ types schema →
   (2 ≤ length (List.filter (λ e, negb (isUndefined e)) (types schema)))%nat →
   ∃ msg, createSchemaDefinitionQueue EOL wrap inspect localeCompare schema alias
          = Throw (TypeError msg)) ∧
  queueOf (createSchemaDefinitionQueue EOL wrap inspect localeCompare schema alias)
  = queueOf (createSchemaDefinitionQueue EOL wrap inspect localeCompare
               (withTypes schema
                  (List.filter (λ e, negb (isUndefined e)) (types schema))) alias) ∧
  (∀ msg,
     createSchemaDefinitionQueue EOL wrap inspect localeCompare schema alias
     = Throw (Error msg) →
     ∃ t, Obj t ∈ types schema ∧ ¬ knownKind (kind t)
          ∧ msg = "Unexpected type: " +:+ kind t).
Proof.
  split; [apply null_entry_throws|].
  split; [apply undefined_entries_dropped|].
  apply unexpected_type_only_for_entities.
Qed.

End Emitter.

(** ** The three consumers *)

Lemma append_nil_r (a : string) : a +:+ "" = a.
Proof. induction a as [|c a IH]; simpl; [reflexivity | now rewrite IH]. Qed.

Lemma join_chunks (EOL : string) (blocks : list string) :
  blocks ≠ [] →
  join (EOL +:+ EOL) blocks +:+ EOL +:+ EOL = contentOf (map (chunkOf EOL) blocks).
Proof.
  induction blocks as [|b [|b' rest] IH]; intros Hne; [contradiction| |].
  - simpl. unfold chunkOf. now rewrite append_nil_r.
  - change (join (EOL +:+ EOL) (b :: b' :: rest))
      with (b +:+ (EOL +:+ EOL) +:+ join (EOL +:+ EOL) (b' :: rest)).
    change (contentOf (map (chunkOf EOL) (b :: b' :: rest)))
      with ((b +:+ EOL +:+ EOL) +:+ contentOf (map (chunkOf EOL) (b' :: rest))).
    rewrite <- IH by discriminate. now rewrite !append_assoc.
Qed.

Lemma runAll_cons (task : Task) (q : list Task) (blocks : list string) :
  runAll (task :: q) = Ok blocks →
  ∃ out rest, task tt = Ok out ∧ runAll q = Ok rest ∧ blocks = out :: rest.
Proof.
  unfold runAll. simpl. intros H. inv_bind H. inv_bind H. injection H as <-. eauto.
Qed.

Section Consumers.

Variable EOL : string.
Variable wrap : string → nat → string → string.
Variable inspect : string → string.
Variable localeCompare : string → string → Z.

(** One call of [_read] on a queue whose tasks all return: some of the
    blocks are pushed, in order; the loop stops with the queue empty, or
    paused on a shorter queue. *)
Lemma readLoop_Ok (push : list string → bool) (q : list Task)
    (chunks blocks : list string) :
  runAll q = Ok blocks →
  ∃ q' paused blocks1 blocks2,
    readLoop EOL push q chunks = Ok (q', chunks ++ map (chunkOf EOL) blocks1, paused) ∧
    blocks = blocks1 ++ blocks2 ∧ runAll q' = Ok blocks2 ∧
    (paused = false → q' = []) ∧
    (paused = true → (length q' < length q)%nat).
Proof.
  revert chunks blocks. induction q as [|task q IH]; intros chunks blocks H.
  - injection H as <-. exists [], false, [], []. simpl. rewrite app_nil_r.
    repeat split; auto. discriminate.
  - apply runAll_cons in H as (out & rest & Hout & Hrest & ->).
    simpl. rewrite Hout. simpl.
    destruct (push (chunks ++ [out +:+ EOL +:+ EOL])) eqn:Hpush.
    + exists q, true, [out], rest. simpl.
      repeat split; auto; try discriminate; intros; lia.
    + destruct (IH (chunks ++ [out +:+ EOL +:+ EOL]) rest Hrest)
        as (q' & paused & b1 & b2 & Hloop & -> & Hq' & Hend & Hlen).
      exists q', paused, (out :: b1), b2. rewrite Hloop. simpl.
      rewrite <- app_assoc. repeat split; auto. intros Hp. specialize (Hlen Hp). lia.
Qed.

(** Whatever [push] answers, a consumer that keeps reading reaches the end
    of the stream within one read per task and one more, having received
    every block as a chunk, in order. *)
Lemma drain_Ok (push : list string → bool) (fuel : nat) (q : list Task)
    (chunks blocks : list string) :
  runAll q = Ok blocks → (length q < fuel)%nat →
  ∃ r, drain EOL fuel push (mkReadable q chunks false) = Ok r ∧
       r_ended r = true ∧ r_chunks r = chunks ++ map (chunkOf EOL) blocks.
Proof.
  revert q chunks blocks. induction fuel as [|fuel IH]; intros q chunks blocks H Hlen; [lia|].
  simpl. unfold _read. simpl.
  destruct (readLoop_Ok push q chunks blocks H)
    as (q' & paused & b1 & b2 & Hloop & -> & Hq' & Hend & Hshort).
  rewrite Hloop. simpl. destruct paused.
  - destruct (IH q' (chunks ++ map (chunkOf EOL) b1) b2 Hq') as (r & Hr & He & Hc).
    { specialize (Hshort eq_refl). lia. }
    exists r. rewrite Hr. repeat split; auto. now rewrite Hc, map_app, app_assoc.
  - rewrite (Hend eq_refl) in Hq'. injection Hq' as <-. rewrite app_nil_r.
    eexists. split; [destruct fuel; reflexivity|]. split; reflexivity.
Qed.

(** Had the executor called [next], the promise would resolve with the
    blocks as the eager emitter joins them. *)
Lemma next_resolves (q : list Task) (buff : string) (blocks : list string) (fuel : nat) :
  runAll q = Ok blocks → (length q ≤ fuel)%nat →
  p_state (runTicks EOL fuel (next EOL (mkPromiseRun q buff Pending 0)))
  = Resolved (buff +:+ contentOf (map (chunkOf EOL) blocks)).
Proof.
  revert buff blocks fuel. induction q as [|task q IH]; intros buff blocks fuel H Hlen.
  - injection H as <-. simpl. rewrite append_nil_r. now destruct fuel.
  - apply runAll_cons in H as (out & rest & Hout & Hrest & ->).
    destruct fuel as [|fuel]; [simpl in Hlen; lia|].
    unfold next at 1. simpl. rewrite Hout. simpl.
    rewrite IH with (blocks := rest); [|assumption|simpl in Hlen; lia].
    unfold chunkOf. now rewrite !append_assoc.
Qed.

Lemma executor_idle (q : list Task) (fuel : nat) :
  runTicks EOL fuel (executor q) = executor q.
Proof. now destruct fuel. Qed.

(** C4. When the eager emitter returns a document: the stream, read to
    its end, delivers the same document whatever [push] answers; the
    promise is created and never settles, because its executor declares
    [next] without calling it, and one call of [next] would have resolved it
    with the same document. *)
Theorem promise_never_settles (schema : Schema) (alias : gmap string string)
    (types' : list Entry) (out : string) :
  schemaToDefinition EOL wrap inspect localeCompare schema alias = Ok (types', out) →
  (∃ r, createReadableSchemaDefinition EOL wrap inspect localeCompare schema alias = Ok (types', r) ∧
        ∀ push fuel, (length (r_queue r) < fuel)%nat →
          ∃ r', drain EOL fuel push r = Ok r' ∧ r_ended r' = true
                ∧ contentOf (r_chunks r') = out) ∧
  (∃ st, createPromiseSchemaDefinition EOL wrap inspect localeCompare schema alias = Ok (types', st) ∧
         (∀ fuel, p_state (runTicks EOL fuel st) = Pending) ∧
         (∀ fuel, (length (p_queue st) ≤ fuel)%nat →
            p_state (runTicks EOL fuel (next EOL st)) = Resolved out)).
Proof.
  unfold schemaToDefinition, createReadableSchemaDefinition, createPromiseSchemaDefinition.
  intros H. inv_bind H. destruct a as [sorted q]. inv_bind H. injection H as <- <-.
  rewrite Ha. simpl. fold (runAll q) in Ha0.
  assert (a ≠ []) as Hne.
  { apply createSchemaDefinitionQueue_Ok in Ha as (_ & tasks & -> & _).
    apply runAll_cons in Ha0 as (? & ? & _ & _ & ->). discriminate. }
  rewrite (join_chunks EOL a Hne).
  split.
  - eexists. split; [reflexivity|]. intros push fuel Hfuel.
    destruct (drain_Ok push fuel q [] a Ha0 Hfuel) as (r' & Hr' & He & Hc).
    exists r'. rewrite Hc. auto.
  - eexists. split; [reflexivity|]. split.
    + intros fuel. now rewrite executor_idle.
    + intros fuel Hfuel. unfold executor.
      now rewrite (next_resolves q "" a fuel Ha0 Hfuel).
Qed.

End Consumers.

(** Comparison by code units is a consistent comparison. *)
Lemma ordinalCompare_le (a b : string) : ordinalCompare a b ≤ 0 ↔ String.le a b.
Proof.
  unfold ordinalCompare, String.le, String.leb.
  destruct (String.compare a b); simpl; split; intros; try lia; easy.
Qed.

Lemma ordinalCompare_consistent : consistentCompare ordinalCompare.
Proof.
  split.
  - intros a b. unfold ordinalCompare. rewrite (String.compare_antisym a b).
    now destruct (String.compare b a).
  - intros a b c. rewrite !ordinalCompare_le. apply transitivity.
Qed.


Lemma scalar_alias_precedence_witness :
  ∃ types' q,
    createSchemaDefinitionQueue LF indentOnly nativeCode ordinalCompare (schemaOf [Obj intScalar]) bigintAlias
    = Ok (types', q) ∧
    ∃ task : Task, task ∈ q ∧ task tt = Ok "export type Int = number;".
Proof.
  eexists _, _. split; [reflexivity|].
  exact (proj1 (scalar_alias_precedence LF indentOnly nativeCode ordinalCompare
                  (schemaOf [Obj intScalar]) bigintAlias _ _ intScalar
                  eq_refl (list_elem_of_here _ _) eq_refl)).
Defined.

(** C1, as stated, fails: with the caller's alias for Int the block of the
    scalar Int still reads [number], not the caller's expression; the
    document is the one translated without any alias, in the emitter and in
    its earlier revision alike. *)
Lemma alias_override_counterexample :
  entityBlocks (createSchemaDefinitionQueue LF indentOnly nativeCode ordinalCompare
                  (schemaOf [Obj intScalar]) bigintAlias)
  = Ok ["export type Int = number;"] ∧
  bigintAlias !! "Int" = Some "bigint-equivalent" ∧
  scalarToDefinition LF indentOnly nativeCode intScalar (getProperty bigintAlias "Int")
  = "export type Int = bigint-equivalent;" ∧
  schemaToDefinition LF indentOnly nativeCode ordinalCompare
    (schemaOf [Obj intScalar]) bigintAlias
  = schemaToDefinition LF indentOnly nativeCode ordinalCompare (schemaOf [Obj intScalar]) ∅ ∧
  Part004.schemaToDefinition LF indentOnly nativeCode ordinalCompare
    (schemaOf [Obj intScalar]) bigintAlias
  = Part004.schemaToDefinition LF indentOnly nativeCode ordinalCompare
      (schemaOf [Obj intScalar]) ∅.
Proof. repeat split. Qed.



Lemma translation_idempotent_witness :
  antisymmetricCompare ordinalCompare ∧
  ∃ out,
    schemaToDefinition LF indentOnly nativeCode ordinalCompare (schemaOf unsortedPair) ∅
    = Ok (sortedPair, out) ∧
    schemaToDefinition LF indentOnly nativeCode ordinalCompare
      (withTypes (schemaOf unsortedPair) sortedPair) ∅
    = Ok (sortedPair, out).
Proof.
  split; [exact (proj1 ordinalCompare_consistent)|].
  eexists. split; [reflexivity|].
  exact (translation_idempotent LF indentOnly nativeCode ordinalCompare (schemaOf unsortedPair) ∅
           _ _ (proj1 ordinalCompare_consistent) eq_refl).
Defined.

Lemma promise_never_settles_witness :
  ∃ out st,
    schemaToDefinition LF indentOnly nativeCode ordinalCompare (schemaOf []) ∅ = Ok ([], out) ∧
    createPromiseSchemaDefinition LF indentOnly nativeCode ordinalCompare (schemaOf []) ∅
    = Ok ([], st) ∧
    ∀ fuel, p_state (runTicks LF fuel st) = Pending.
Proof.
  eexists.
  destruct (proj2 (promise_never_settles LF indentOnly nativeCode ordinalCompare (schemaOf []) ∅
                     _ _ eq_refl)) as (st & Hst & Hpending & _).
  exists st. split; [reflexivity|]. split; assumption.
Defined.

Lemma null_entry_not_dropped_witness :
  Null ∈ types (schemaOf scalarBehindNull) ∧
  ∃ msg,
    createSchemaDefinitionQueue LF indentOnly nativeCode ordinalCompare
      (schemaOf scalarBehindNull) ∅
    = Throw (TypeError msg).
Proof.
  split; [constructor|].
  apply (proj1 (null_entry_not_dropped LF indentOnly nativeCode ordinalCompare
                  (schemaOf scalarBehindNull) ∅)); [constructor | simpl; lia].
Defined.

(** * Further properties *)

(** ** The type-reference resolver, on every reference *)

Lemma TypeRef_nested_ind (P : TypeRef → Prop) :
  (∀ k n, P (mkTypeRef k n None)) →
  (∀ k n inner, P inner → P (mkTypeRef k n (Some inner))) →
  ∀ t, P t.
Proof.
  intros Hleaf Hwrap. fix IH 1.
  intros [k n [inner|]]; [apply Hwrap, IH | apply Hleaf].
Qed.

Lemma isWrapper_decide (k : string) :
  isWrapper k = true ↔ k = LIST ∨ k = NON_NULL.
Proof. unfold isWrapper. apply bool_decide_eq_true. Qed.

Lemma refToDefinition_leaf (k : string) (n : jsstring) (o : option TypeRef)
    (isNonNull : bool) :
  isWrapper k = false →
  refToDefinition (mkTypeRef k n o) isNonNull
  = Ok (if isNonNull then toString n else "Optional<" +:+ toString n +:+ ">").
Proof.
  intros Hk. apply bool_decide_eq_false in Hk.
  simpl. destruct (decide (k = LIST)); [tauto|].
  destruct (decide (k = NON_NULL)); [tauto | reflexivity].
Qed.

Lemma refToDefinition_defined (type : TypeRef) (isNonNull : bool) :
  wellFormed type = true → ∃ s, refToDefinition type isNonNull = Ok s.
Proof.
  revert isNonNull. induction type as [k n | k n inner IH] using TypeRef_nested_ind;
    intros isNonNull; simpl wellFormed.
  - destruct (isWrapper k) eqn:Hk; [discriminate|]. intros _.
    rewrite refToDefinition_leaf by assumption. eauto.
  - destruct (isWrapper k) eqn:Hk.
    + intros Hw. apply isWrapper_decide in Hk as [-> | ->].
      * rewrite refToDefinition_list. destruct (IH false Hw) as [s ->]. simpl. eauto.
      * rewrite refToDefinition_nonNull. destruct (IH true Hw) as [s ->]. simpl. eauto.
    + intros _. rewrite refToDefinition_leaf by assumption. eauto.
Qed.

(** X1. The resolver returns a type expression exactly for the well-formed
    references; a wrapper (LIST or NON_NULL) without an [ofType], at any
    depth, makes it throw the [TypeError] of reading [kind] of [null],
    whatever the non-null flag. *)
Theorem refToDefinition_wellFormed (type : TypeRef) (isNonNull : bool) :
  (wellFormed type = true → ∃ s, refToDefinition type isNonNull = Ok s) ∧
  (wellFormed type = false →
   refToDefinition type isNonNull = Throw (readOfNull "kind")).
Proof.
  revert isNonNull. induction type as [k n | k n inner IH] using TypeRef_nested_ind;
    intros isNonNull.
  - simpl wellFormed. destruct (isWrapper k) eqn:Hk.
    + split; [discriminate|]. intros _.
      apply isWrapper_decide in Hk as [-> | ->]; reflexivity.
    + split; [|discriminate]. intros _. rewrite refToDefinition_leaf by assumption. eauto.
  - simpl wellFormed. destruct (isWrapper k) eqn:Hk.
    + apply isWrapper_decide in Hk as [-> | ->].
      * rewrite refToDefinition_list. destruct (IH false) as [Hok Hthrow]. split; intros Hw.
        -- destruct (Hok Hw) as [s ->]. simpl. eauto.
        -- now rewrite (Hthrow Hw).
      * rewrite refToDefinition_nonNull. destruct (IH true) as [Hok Hthrow]. split; intros Hw.
        -- destruct (Hok Hw) as [s ->]. simpl. eauto.
        -- now rewrite (Hthrow Hw).
    + split; [|discriminate]. intros _. rewrite refToDefinition_leaf by assumption. eauto.
Qed.

Lemma refToDefinition_wellFormed_witness :
  wellFormed (mkTypeRef NON_NULL None (Some (mkTypeRef LIST None None))) = false ∧
  refToDefinition (mkTypeRef NON_NULL None (Some (mkTypeRef LIST None None))) false
  = Throw (readOfNull "kind").
Proof.
  split; [reflexivity|].
  now apply (refToDefinition_wellFormed
               (mkTypeRef NON_NULL None (Some (mkTypeRef LIST None None))) false).
Defined.

Lemma closers_snoc (n : nat) : closers n +:+ ">" = ">" +:+ closers n.
Proof. induction n as [|n IH]; simpl; [reflexivity | now rewrite IH]. Qed.

(** X2. The type expression of a well-formed reference is flat: the
    openers of its wrappers in order, outermost first, then the name of the
    reference under them, then one closer per wrapper. The name stands
    bare right under a NON_NULL wrapper and inside [Optional<...>] right
    under a LIST; with no wrapper at all the non-null flag decides. *)
Theorem refToDefinition_flat (type : TypeRef) (isNonNull : bool) :
  wellFormed type = true →
  refToDefinition type isNonNull
  = Ok (openers (wrappersOf type)
        +:+ (if match last (wrappersOf type) with
                | Some kind => bool_decide (kind = NON_NULL)
                | None => isNonNull
                end
             then toString (ref_name (leafOf type))
             else "Optional<" +:+ toString (ref_name (leafOf type)) +:+ ">")
        +:+ closers (length (wrappersOf type))).
Proof.
  revert isNonNull. induction type as [k n | k n inner IH] using TypeRef_nested_ind;
    intros isNonNull; simpl wellFormed; simpl wrappersOf; simpl leafOf.
  - destruct (isWrapper k) eqn:Hk; [discriminate|]. intros _.
    rewrite refToDefinition_leaf by assumption. simpl.
    now rewrite append_nil_r.
  - destruct (isWrapper k) eqn:Hk.
    + intros Hw.
      assert (∀ flag : bool,
                is_Some (last (wrappersOf inner)) ∨
                (last (wrappersOf inner) = None ∧ flag = bool_decide (k = NON_NULL)) →
                match last (k :: wrappersOf inner) with
                | Some kind => bool_decide (kind = NON_NULL)
                | None => isNonNull
                end
                = match last (wrappersOf inner) with
                  | Some kind => bool_decide (kind = NON_NULL)
                  | None => flag
                  end) as Hlast.
      { intros flag. destruct (wrappersOf inner) as [|k' ks] eqn:E.
        - intros [[? [=]] | [_ ->]]. reflexivity.
        - intros _. change (last (k :: k' :: ks)) with (last (k' :: ks)).
          destruct (last (k' :: ks)) eqn:E'; [reflexivity|].
          now apply last_None in E'. }
      apply isWrapper_decide in Hk as [-> | ->].
      * rewrite refToDefinition_list, (IH false Hw).
        rewrite (Hlast false).
        2:{ destruct (last (wrappersOf inner)); [left; eauto | right; split; reflexivity]. }
        change (openers (LIST :: wrappersOf inner))
          with ("List<" +:+ openers (wrappersOf inner)).
        change (closers (length (LIST :: wrappersOf inner)))
          with (">" +:+ closers (length (wrappersOf inner))).
        unfold mbind, result_bind. f_equal.
        now rewrite !append_assoc, closers_snoc.
      * rewrite refToDefinition_nonNull, (IH true Hw).
        rewrite (Hlast true).
        2:{ destruct (last (wrappersOf inner)); [left; eauto | right; split; reflexivity]. }
        change (openers (NON_NULL :: wrappersOf inner))
          with ("NonNull<" +:+ openers (wrappersOf inner)).
        change (closers (length (NON_NULL :: wrappersOf inner)))
          with (">" +:+ closers (length (wrappersOf inner))).
        unfold mbind, result_bind. f_equal.
        now rewrite !append_assoc, closers_snoc.
    + intros _. rewrite refToDefinition_leaf by assumption. simpl.
      now rewrite append_nil_r.
Qed.

Lemma refToDefinition_flat_witness :
  refToDefinition (listOf (nonNullOf (listOf (named OBJECT "T")))) false
  = Ok "List<NonNull<List<Optional<T>>>>".
Proof.
  now apply (refToDefinition_flat (listOf (nonNullOf (listOf (named OBJECT "T")))) false).
Defined.

(** ** Comments and members *)

Section Members.

Variable EOL : string.
Variable wrap : string → nat → string → string.

(** X3. A comment block is the opening line, the facets that are present
    in the fixed order deprecation, default value, description, with one
    blank comment line between two facets, and the closing line, joined by
    line feeds; with no facet it is the empty string. *)
Theorem descriptionToComment_layout (desc : Commentable) (tab : string) :
  descriptionToComment wrap desc tab
  = match facets wrap desc tab with
    | [] => ""
    | fs => join LF (beginComment tab
                     :: intersperse (toComment wrap "" tab) fs ++ [endComment tab])
    end.
Proof.
  unfold descriptionToComment, facets.
  destruct (c_isDeprecated desc), (truthyDefault (c_defaultValue desc)),
    (truthy (c_description desc)), (truthy (c_deprecationReason desc));
    cbn [orb app length Nat.ltb Nat.leb intersperse]; rewrite ?append_nil_r; reflexivity.
Qed.

(** X4. An enum value is commented only under a truthy description: a
    deprecated value without description is rendered as its quoted name
    alone, although the synthesizer has a block for it. A field in the
    same state keeps its [@deprecated] block, because the guard of
    [fieldToDefinition] also tests [isDeprecated]. *)
Theorem enumValue_deprecation_lost (value : EnumValue) (field : Field) :
  truthy (ev_description value) = false → ev_isDeprecated value = true →
  truthy (f_description field) = false → f_isDeprecated field = true →
  enumValueToDefinition EOL wrap value
  = EOL +:+ TAB +:+ QUOTE +:+ ev_name value +:+ QUOTE ∧
  descriptionToComment wrap (ofEnumValue value) TAB ≠ "" ∧
  fieldToDefinition EOL wrap field
  = (ref ← refToDefinition (f_type field) false;
     Ok (EOL +:+ descriptionToComment wrap (ofField field) TAB +:+ EOL
         +:+ TAB +:+ f_name field
         +:+ (if decide (ref_kind (f_type field) = NON_NULL) then ": " else "?: ")
         +:+ ref +:+ ";")) ∧
  descriptionToComment wrap (ofField field) TAB
  = join LF [ beginComment TAB;
              toComment wrap
                ("@deprecated" +:+ (if truthy (f_deprecationReason field)
                                    then " " +:+ toString (f_deprecationReason field)
                                    else "")) TAB;
              endComment TAB ].
Proof.
  intros Hvd Hvdep Hfd Hfdep. repeat split.
  - unfold enumValueToDefinition. now rewrite Hvd.
  - apply descriptionToComment_present. simpl. rewrite Hvdep. now rewrite !orb_true_r.
  - unfold fieldToDefinition. rewrite Hfd, Hfdep. reflexivity.
  - unfold descriptionToComment, ofField.
    cbn [c_defaultValue c_description c_isDeprecated c_deprecationReason truthyDefault].
    rewrite Hfd, Hfdep. cbn [orb app length Nat.ltb Nat.leb].
    destruct (truthy (f_deprecationReason field)); rewrite ?append_nil_r; reflexivity.
Qed.

Lemma refToDefinition_prefix (type : TypeRef) (ref : string) :
  refToDefinition type false = Ok ref →
  String.prefix "NonNull<" ref = bool_decide (ref_kind type = NON_NULL).
Proof.
  destruct type as [k n o]. simpl.
  destruct (decide (k = LIST)) as [-> | HL].
  - destruct o as [inner|]; [|discriminate]. intros H. inv_bind H. injection H as <-.
    rewrite bool_decide_eq_false_2 by discriminate. reflexivity.
  - destruct (decide (k = NON_NULL)) as [-> | HN].
    + destruct o as [inner|]; [|discriminate]. intros H. inv_bind H. injection H as <-.
      rewrite bool_decide_eq_true_2 by reflexivity. simpl. now destruct (a +:+ ">").
    + intros [= <-]. rewrite bool_decide_eq_false_2 by assumption. reflexivity.
Qed.

Ltac separator_case Ha :=
  rewrite (refToDefinition_prefix _ _ Ha); simpl; rewrite ?append_assoc;
  case_bool_decide;
  [rewrite decide_True by assumption | rewrite decide_False by assumption];
  reflexivity.

(** X5. A member, field or input value alike, is marked required with
    [": "] exactly when its type expression is a [NonNull<...>], and
    optional with ["?: "] otherwise; the member line ends the rendering,
    which throws only when the resolver does. *)
Theorem member_separator (field : Field) (arg : InputValue) :
  (∀ s, fieldToDefinition EOL wrap field = Ok s →
     ∃ comment ref,
       refToDefinition (f_type field) false = Ok ref ∧
       s = comment +:+ TAB +:+ f_name field
           +:+ (if String.prefix "NonNull<" ref then ": " else "?: ") +:+ ref +:+ ";") ∧
  (∀ s, inputValueToDefinition EOL wrap arg = Ok s →
     ∃ comment ref,
       refToDefinition (iv_type arg) false = Ok ref ∧
       s = comment +:+ TAB +:+ iv_name arg
           +:+ (if String.prefix "NonNull<" ref then ": " else "?: ") +:+ ref +:+ ";") ∧
  (∀ e, fieldToDefinition EOL wrap field = Throw e →
        refToDefinition (f_type field) false = Throw e) ∧
  (∀ e, inputValueToDefinition EOL wrap arg = Throw e →
        refToDefinition (iv_type arg) false = Throw e).
Proof.
  unfold fieldToDefinition, inputValueToDefinition. repeat split.
  - intros s H. inv_bind H. injection H as <-.
    destruct (truthy (f_description field) || f_isDeprecated field).
    + exists (EOL +:+ descriptionToComment wrap (ofField field) TAB +:+ EOL), a.
      split; [assumption|]. separator_case Ha.
    + exists EOL, a. split; [assumption|]. separator_case Ha.
  - intros s H. inv_bind H. injection H as <-.
    destruct (truthy (iv_description arg)).
    + exists (EOL +:+ descriptionToComment wrap (ofInputValue arg) TAB +:+ EOL), a.
      split; [assumption|]. separator_case Ha.
    + exists EOL, a. split; [assumption|]. separator_case Ha.
  - intros e. destruct (refToDefinition (f_type field) false); simpl; [discriminate | trivial].
  - intros e. destruct (refToDefinition (iv_type arg) false); simpl; [discriminate | trivial].
Qed.

End Members.

Lemma enumValue_deprecation_lost_witness :
  enumValueToDefinition LF indentOnly (mkEnumValue "OLD" None true (Some "gone"))
  = LF +:+ "    " +:+ QUOTE +:+ "OLD" +:+ QUOTE.
Proof.
  apply (enumValue_deprecation_lost LF indentOnly
           (mkEnumValue "OLD" None true (Some "gone"))
           (mkField "old" None true None [] (named SCALAR "Int")));
    reflexivity.
Defined.

Lemma member_separator_witness :
  ∃ comment ref,
    refToDefinition (nonNullOf (named SCALAR "Int")) false = Ok ref ∧
    LF +:+ "    id: NonNull<Int>;"
    = comment +:+ TAB +:+ "id"
      +:+ (if String.prefix "NonNull<" ref then ": " else "?: ") +:+ ref +:+ ";".
Proof.
  apply (proj1 (member_separator LF indentOnly
                  (mkField "id" None false None [] (nonNullOf (named SCALAR "Int")))
                  defaultOnlyArg)).
  reflexivity.
Defined.

(** ** The queue and its consumers, further *)

Lemma join_snoc (sep x : string) (l : list string) :
  l ≠ [] → join sep (l ++ [x]) = join sep l +:+ sep +:+ x.
Proof.
  induction l as [|y [|z l] IH]; intros Hne; [contradiction|reflexivity|].
  change (join sep ((y :: z :: l) ++ [x]))
    with (y +:+ sep +:+ join sep ((z :: l) ++ [x])).
  rewrite IH by discriminate.
  change (join sep (y :: z :: l)) with (y +:+ sep +:+ join sep (z :: l)).
  now rewrite !append_assoc.
Qed.

Lemma runAll_cons_Throw (task : Task) (q : list Task) (e : exn) :
  runAll (task :: q) = Throw e →
  task tt = Throw e ∨ ∃ out, task tt = Ok out ∧ runAll q = Throw e.
Proof.
  unfold runAll. simpl. destruct (task tt) as [out|e']; simpl.
  - destruct (mapM _ q); simpl; [discriminate|]. intros [= <-]. eauto.
  - intros [= <-]. now left.
Qed.

Lemma arraySort_few (localeCompare : string → string → Z) (a : list Entry) :
  (length (definedEntries a) ≤ 1)%nat →
  ∃ l, arraySort (compareTypes localeCompare) a = Ok l.
Proof.
  unfold arraySort, definedEntries.
  destruct (List.filter _ a) as [|x [|y l]]; simpl; intros; eauto; lia.
Qed.

Lemma response_same (EOL : string) (responseTypes : list string) :
  responseTypes ≠ [] →
  join EOL
    [ "export interface Response {";
      "";
      TAB +:+ "data: " +:+ join " | " responseTypes +:+ " | null;";
      "";
      TAB +:+ "errors?: ErrorResponse[];";
      "}";
      "";
      "export interface ErrorResponse {";
      "";
      TAB +:+ "locations: ErrorLocation[];";
      "";
      TAB +:+ "message: string;";
      "}";
      "";
      "export interface ErrorLocation {";
      "";
      TAB +:+ "line: number;";
      "";
      TAB +:+ "column: number;";
      "}" ]
  = responseDefinition EOL (responseTypes ++ ["null"]).
Proof.
  intros Hne. unfold responseDefinition.
  rewrite (join_snoc " | " "null") by assumption.
  now rewrite !(append_assoc (join " | " responseTypes)).
Qed.

Lemma Forall_Permutation_helper {A} (P : A → Prop) (l l' : list A) :
  l ≡ₚ l' → Forall P l → Forall P l'.
Proof. intros Hp. now rewrite Hp. Qed.

Section Further.

Variable EOL : string.
Variable wrap : string → nat → string → string.
Variable inspect : string → string.
Variable localeCompare : string → string → Z.

(** X6. The queue builder returns exactly when every entity of the array
    is of a known kind and the array holds no [null], or holds at most one
    entry that is not [undefined]; in every other case it throws. *)
Theorem createSchemaDefinitionQueue_returns (schema : Schema)
    (alias : gmap string string) :
  is_Ok (createSchemaDefinitionQueue EOL wrap inspect localeCompare schema alias) = true
  ↔ Forall (λ t, knownKind (kind t)) (objects (types schema)) ∧
    (Null ∉ types schema ∨ (length (definedEntries (types schema)) ≤ 1)%nat).
Proof.
  split.
  - destruct (createSchemaDefinitionQueue _ _ _ _ schema alias) as [[types' q]|e] eqn:H;
      [intros _ | discriminate].
    pose proof H as H'.
    apply createSchemaDefinitionQueue_Ok in H' as (Hsort & tasks & -> & Hall).
    apply Forall2_knownKind in Hall as [Hknown _].
    split.
    + assert (objects types' ≡ₚ objects (types schema)) as Hp.
      { unfold objects. now rewrite (arraySort_Permutation _ _ _ Hsort). }
      eapply Forall_Permutation_helper; eassumption.
    + destruct (Null_elem_dec (types schema)) as [Hn | Hn]; [|now left].
      right. destruct (le_lt_dec (length (definedEntries (types schema))) 1) as [|Hlt];
        [assumption|].
      destruct (null_entry_throws EOL wrap inspect localeCompare schema alias Hn Hlt)
        as [msg Hthrow].
      congruence.
  - intros [Hknown Hfew]. unfold createSchemaDefinitionQueue.
    assert (∃ sorted, arraySort (compareTypes localeCompare) (types schema) = Ok sorted)
      as [sorted Hs].
    { destruct Hfew as [Hn | Hfew]; [now apply arraySort_total | now apply arraySort_few]. }
    rewrite Hs. simpl.
    assert (Forall (λ t, knownKind (kind t)) (objects sorted)) as Hsorted.
    { assert (objects (types schema) ≡ₚ objects sorted) as Hp.
      { unfold objects. now rewrite (arraySort_Permutation _ _ _ Hs). }
      eapply Forall_Permutation_helper; eassumption. }
    edestruct (forEach_pushType_total EOL wrap inspect localeCompare) as [q ->]; [exact Hsorted|].
    reflexivity.
Qed.

Lemma scalar_task (schema : Schema) (alias : gmap string string)
    (types' : list Entry) (q : list Task) (t : SchemaType) :
  createSchemaDefinitionQueue EOL wrap inspect localeCompare schema alias = Ok (types', q) →
  Obj t ∈ types schema → kind t = SCALAR →
  ∃ task : Task, task ∈ q ∧
    task tt = Ok (scalarToDefinition EOL wrap inspect t
                    (getProperty (objectAssign ∅ [alias; standardAlias]) (name t))).
Proof.
  intros H Ht Hk.
  apply createSchemaDefinitionQueue_Ok in H as (Hsort & tasks & -> & Hall).
  rewrite <- (arraySort_Permutation _ _ _ Hsort) in Ht.
  apply elem_of_objects, list_elem_of_lookup in Ht as [i Hi].
  destruct (Forall2_lookup_r _ _ _ _ _ Hall Hi) as (task & Htask & _ & Hrun).
  exists task. split.
  - rewrite !elem_of_cons. right. right. eapply list_elem_of_lookup_2, Htask.
  - rewrite Hrun. unfold definitionOf. now rewrite decide_True by assumption.
Qed.

(** X7. A SCALAR entity without description that has no alias, neither
    built in nor from the caller, is rendered as an alias of [string],
    unless its name is that of a member of [Object.prototype] (such as
    toString or constructor): the lookup in the alias object then finds the
    inherited member, the default does not apply, and the member's text
    is printed as the alias. *)
Theorem scalar_without_alias (schema : Schema) (alias : gmap string string)
    (types' : list Entry) (q : list Task) (t : SchemaType) :
  createSchemaDefinitionQueue EOL wrap inspect localeCompare schema alias = Ok (types', q) →
  Obj t ∈ types schema → kind t = SCALAR → truthy (description t) = false →
  ¬ builtinScalar (name t) → alias !! name t = None →
  ∃ task : Task, task ∈ q ∧
    task tt = Ok ("export type " +:+ name t +:+ " = "
                  +:+ (if decide (name t ∈ objectPrototype)
                       then inspect (name t) else "string") +:+ ";").
Proof.
  intros H Ht Hk Hd Hb Ha.
  destruct (scalar_task schema alias types' q t H Ht Hk) as (task & Hin & Hrun).
  exists task. split; [assumption|]. rewrite Hrun.
  rewrite getProperty_merged, decide_False by assumption.
  unfold scalarToDefinition, getProperty. rewrite Ha, Hd.
  now destruct (decide (name t ∈ objectPrototype)).
Qed.

(** The reading loop when a task throws: the error of the first such task
    comes out of this call, or the loop pauses before reaching it. *)
Lemma readLoop_Throw (push : list string → bool) (q : list Task)
    (chunks : list string) (e : exn) :
  runAll q = Throw e →
  readLoop EOL push q chunks = Throw e ∨
  ∃ q' chunks', readLoop EOL push q chunks = Ok (q', chunks', true) ∧
                runAll q' = Throw e ∧ (length q' < length q)%nat.
Proof.
  revert chunks. induction q as [|task q IH]; intros chunks H; [discriminate|].
  apply runAll_cons_Throw in H as [Hthrow | (out & Hout & Hrest)]; simpl.
  - left. now rewrite Hthrow.
  - rewrite Hout. simpl.
    destruct (push (chunks ++ [out +:+ EOL +:+ EOL])).
    + right. exists q, (chunks ++ [out +:+ EOL +:+ EOL]). repeat split; auto; simpl; lia.
    + destruct (IH (chunks ++ [out +:+ EOL +:+ EOL]) Hrest)
        as [Ht | (q' & chunks' & Hloop & Hq' & Hlen)]; [now left|].
      right. exists q', chunks'. repeat split; auto; simpl; lia.
Qed.

Lemma drain_Throw (push : list string → bool) (fuel : nat) (q : list Task)
    (chunks : list string) (e : exn) :
  runAll q = Throw e → (length q < fuel)%nat →
  drain EOL fuel push (mkReadable q chunks false) = Throw e.
Proof.
  revert q chunks. induction fuel as [|fuel IH]; intros q chunks H Hlen; [lia|].
  simpl. unfold _read. simpl.
  destruct (readLoop_Throw push q chunks e H) as [-> | (q' & chunks' & -> & Hq' & Hshort)];
    [reflexivity|].
  simpl. apply IH; [assumption | lia].
Qed.

Lemma next_rejects (q : list Task) (buff : string) (e : exn) (fuel : nat) :
  runAll q = Throw e → (length q ≤ fuel)%nat →
  p_state (runTicks EOL fuel (next EOL (mkPromiseRun q buff Pending 0))) = Rejected e.
Proof.
  revert buff fuel. induction q as [|task q IH]; intros buff fuel H Hlen; [discriminate|].
  apply runAll_cons_Throw in H as [Hthrow | (out & Hout & Hrest)].
  - unfold next. simpl. rewrite Hthrow. now destruct fuel.
  - destruct fuel as [|fuel]; [simpl in Hlen; lia|].
    unfold next at 1. simpl. rewrite Hout. simpl.
    apply IH; [assumption | simpl in Hlen; lia].
Qed.

(** X8. The inverted pause flag of [_read]: [push] answers [false] when
    the consumer wants no more, and the loop stores that answer as
    [isPaused]. So with a consumer that never wants more, a single [_read]
    runs the whole queue, pushes every chunk and ends the stream; with one
    that always wants more, each [_read] pushes one chunk and stops. *)
Theorem read_pause_inverted (push : list string → bool) (q : list Task)
    (chunks blocks : list string) :
  runAll q = Ok blocks →
  ((∀ pushed, push pushed = false) →
   _read EOL push (mkReadable q chunks false)
   = Ok (mkReadable [] (chunks ++ map (chunkOf EOL) blocks) true)) ∧
  ((∀ pushed, push pushed = true) →
   ∀ task rest, q = task :: rest →
     ∃ out, task tt = Ok out ∧
            _read EOL push (mkReadable q chunks false)
            = Ok (mkReadable rest (chunks ++ [chunkOf EOL out]) false)).
Proof.
  intros Hrun. split.
  - intros Hpush. unfold _read. simpl.
    assert (readLoop EOL push q chunks
            = Ok ([], chunks ++ map (chunkOf EOL) blocks, false)) as ->; [|reflexivity].
    revert chunks blocks Hrun. induction q as [|task q IH]; intros chunks blocks Hrun.
    + injection Hrun as <-. simpl. now rewrite app_nil_r.
    + apply runAll_cons in Hrun as (out & rest & Hout & Hrest & ->).
      simpl. rewrite Hout. simpl. rewrite Hpush, (IH _ _ Hrest).
      now rewrite <- app_assoc.
  - intros Hpush task rest ->.
    apply runAll_cons in Hrun as (out & bs & Hout & _ & _).
    exists out. split; [assumption|].
    unfold _read. simpl. rewrite Hout. simpl. now rewrite Hpush.
Qed.

(** X9. When a task of a built queue throws, because a member's type
    reference lacks an [ofType], every consumer reports the error of the
    first such task: the eager emitter throws it, the stream throws it
    from [_read] whatever [push] answers, and the promise, once [next]
    runs, is rejected with it. *)
Theorem consumers_same_error (schema : Schema) (alias : gmap string string)
    (types' : list Entry) (q : list Task) (e : exn) :
  createSchemaDefinitionQueue EOL wrap inspect localeCompare schema alias = Ok (types', q) →
  runAll q = Throw e →
  schemaToDefinition EOL wrap inspect localeCompare schema alias = Throw e ∧
  (∀ push fuel, (length q < fuel)%nat →
     drain EOL fuel push (mkReadable q [] false) = Throw e) ∧
  (∀ fuel, (length q ≤ fuel)%nat →
     p_state (runTicks EOL fuel (next EOL (executor q))) = Rejected e).
Proof.
  intros Hq Hrun. split; [|split].
  - unfold schemaToDefinition. rewrite Hq. simpl. fold (runAll q). now rewrite Hrun.
  - intros push fuel Hfuel. now apply drain_Throw.
  - intros fuel Hfuel. now apply next_rejects.
Qed.

Lemma part004_forEach (alias : gmap string string) (sorted : list Entry)
    (acc : list string) (tasks : list Task) (blocks : list string) :
  Forall2 (λ (task : Task) t, task tt = definitionOf EOL wrap inspect alias t)
          tasks (objects sorted) →
  runAll tasks = Ok blocks →
  forEach (Part004.pushType EOL wrap inspect alias) sorted acc = Ok (acc ++ blocks).
Proof.
  revert acc tasks blocks. induction sorted as [|x sorted IH]; intros acc tasks blocks Hall Hrun.
  - inversion Hall; subst. injection Hrun as <-. simpl. now rewrite app_nil_r.
  - destruct x as [| |t]; simpl in *; [eauto..|].
    inversion Hall as [|task t' tasks' ts Htask Hrest]; subst.
    apply runAll_cons in Hrun as (out & rest & Hout & Hrun & ->).
    rewrite <- Htask, Hout. simpl.
    rewrite (IH _ _ _ Hrest Hrun). now rewrite <- app_assoc.
Qed.

(** X10. The emitter and its earlier revision write the same document:
    when the schema names a root type and the emitter returns a document,
    the earlier revision returns that document without its final blank
    line, and leaves the array in the same order. *)
Theorem revisions_agree (schema : Schema) (alias : gmap string string)
    (types' : list Entry) (out : string) :
  responseTypesOf schema ≠ [] →
  schemaToDefinition EOL wrap inspect localeCompare schema alias = Ok (types', out) →
  ∃ out',
    Part004.schemaToDefinition EOL wrap inspect localeCompare schema alias
    = Ok (types', out') ∧
    out = out' +:+ EOL +:+ EOL.
Proof.
  intros Hroots H. unfold schemaToDefinition in H.
  inv_bind H. destruct a as [sorted q]. inv_bind H. injection H as <- <-.
  fold (runAll q) in Ha0.
  apply createSchemaDefinitionQueue_Ok in Ha as (Hsort & tasks & -> & Hall).
  apply Forall2_knownKind in Hall as [_ Hall].
  apply runAll_cons in Ha0 as (util & rest & Hutil & Hrest & ->).
  apply runAll_cons in Hrest as (response & blocks & Hresponse & Hblocks & ->).
  injection Hutil as <-. injection Hresponse as <-.
  unfold Part004.schemaToDefinition. cbv zeta. cbn [app].
  rewrite (response_same EOL (responseTypesOf schema)) by assumption.
  rewrite Hsort. cbn [mbind result_bind].
  rewrite (part004_forEach _ sorted _ tasks blocks Hall Hblocks).
  cbn [mbind result_bind app].
  eexists. split; reflexivity.
Qed.

End Further.

Lemma createSchemaDefinitionQueue_returns_witness :
  is_Ok (createSchemaDefinitionQueue LF indentOnly nativeCode ordinalCompare
           (schemaOf [Null; Undefined]) ∅) = true.
Proof.
  apply (createSchemaDefinitionQueue_returns LF indentOnly nativeCode ordinalCompare
           (schemaOf [Null; Undefined]) ∅).
  split; [constructor | right; simpl; lia].
Defined.

Lemma scalar_without_alias_witness :
  ∃ types' q,
    createSchemaDefinitionQueue LF indentOnly nativeCode ordinalCompare
      (schemaOf [Obj (plainType SCALAR "toString")]) ∅ = Ok (types', q) ∧
    ∃ task : Task, task ∈ q ∧
      task tt = Ok "export type toString = function toString() { [native code] };".
Proof.
  eexists _, _. split; [reflexivity|].
  apply (scalar_without_alias LF indentOnly nativeCode ordinalCompare
           (schemaOf [Obj (plainType SCALAR "toString")]) ∅ _ _
           (plainType SCALAR "toString") eq_refl (list_elem_of_here _ _) eq_refl eq_refl).
  - unfold builtinScalar. rewrite !elem_of_cons, elem_of_nil.
    intros [? | [? | [? | [? | []]]]]; discriminate.
  - reflexivity.
Defined.

Lemma read_pause_inverted_witness :
  _read LF (λ _, false)
    (mkReadable [λ _, Ok "a"; λ _, Ok "b"] [] false)
  = Ok (mkReadable [] [chunkOf LF "a"; chunkOf LF "b"] true).
Proof.
  apply (proj1 (read_pause_inverted LF (λ _, false) [λ _, Ok "a"; λ _, Ok "b"]
                  [] ["a"; "b"] eq_refl)).
  reflexivity.
Defined.

Lemma consumers_same_error_witness :
  ∃ types' q,
    createSchemaDefinitionQueue LF indentOnly nativeCode ordinalCompare
      (schemaOf [Obj brokenBox]) ∅ = Ok (types', q) ∧
    schemaToDefinition LF indentOnly nativeCode ordinalCompare (schemaOf [Obj brokenBox]) ∅
    = Throw (readOfNull "kind").
Proof.
  eexists _, _. split; [reflexivity|].
  apply (consumers_same_error LF indentOnly nativeCode ordinalCompare
           (schemaOf [Obj brokenBox]) ∅ _ _ (readOfNull "kind") eq_refl eq_refl).
Defined.

Lemma revisions_agree_witness :
  ∃ types' out out',
    schemaToDefinition LF indentOnly nativeCode ordinalCompare rootedSchema ∅
    = Ok (types', out) ∧
    Part004.schemaToDefinition LF indentOnly nativeCode ordinalCompare rootedSchema ∅
    = Ok (types', out') ∧
    out = out' +:+ LF +:+ LF.
Proof.
  eexists _, _.
  destruct (revisions_agree LF indentOnly nativeCode ordinalCompare rootedSchema ∅ _ _
              ltac:(discriminate) eq_refl) as (out' & H004 & Hout).
  exists out'. split; [reflexivity|]. split; assumption.
Defined.

(** ** The command *)

Lemma splitFrom_none (c : ascii) (piece s : string) :
  holds c s = false →
  Command.splitFrom (String c "") 0 piece s = [piece +:+ s].
Proof.
  revert piece. induction s as [|c' s IH]; intros piece H; simpl in *.
  - now rewrite append_nil_r.
  - destruct (decide (c' = c)) as [-> | Hne]; [discriminate|].
    destruct (ascii_dec c c') as [<- | _]; [contradiction|].
    rewrite IH by assumption. now rewrite append_assoc.
Qed.

Lemma splitFrom_first (c : ascii) (piece a rest : string) :
  holds c a = false →
  Command.splitFrom (String c "") 0 piece (a +:+ String c rest)
  = (piece +:+ a) :: Command.splitFrom (String c "") 0 "" rest.
Proof.
  revert piece. induction a as [|c' a IH]; intros piece H; simpl in *.
  - destruct (ascii_dec c c) as [_ | Hne]; [|contradiction].
    rewrite append_nil_r. now destruct rest.
  - destruct (decide (c' = c)) as [-> | Hne]; [discriminate|].
    destruct (ascii_dec c c') as [<- | _]; [contradiction|].
    rewrite IH by assumption. now rewrite append_assoc.
Qed.

Lemma split_pair (name expression : string) :
  holds "="%char name = false → holds "="%char expression = false →
  Command.split (name +:+ "=" +:+ expression) "=" = [name; expression].
Proof.
  intros Hn He. unfold Command.split.
  change (name +:+ "=" +:+ expression) with (name +:+ String "="%char expression).
  rewrite splitFrom_first by assumption.
  now rewrite splitFrom_none by assumption.
Qed.

Lemma split_more (name expression rest : string) :
  holds "="%char name = false → holds "="%char expression = false →
  take 2 (Command.split (name +:+ "=" +:+ expression +:+ "=" +:+ rest) "=")
  = [name; expression].
Proof.
  intros Hn He. unfold Command.split.
  change (name +:+ "=" +:+ expression +:+ "=" +:+ rest)
    with (name +:+ String "="%char (expression +:+ String "="%char rest)).
  now rewrite !splitFrom_first by assumption.
Qed.

Lemma split_single (name : string) :
  holds "="%char name = false → Command.split name "=" = [name].
Proof. intros H. unfold Command.split. now rewrite splitFrom_none by assumption. Qed.

Lemma getAlias_snoc (flags : Command.IFlags) (entries : list string) (entry : string) :
  Command.scalarAlias flags = Some (entries ++ [entry]) →
  ∃ alias : gmap string jsstring,
    Command.getAlias flags
    = Command.setProperty alias
        (Command.toKey (Command.split entry "=" !! 0%nat))
        (Command.split entry "=" !! 1%nat).
Proof.
  intros H. unfold Command.getAlias. rewrite H, foldl_app. simpl. eauto.
Qed.

(** X11. A pair [name=expression] of [--alias], neither part holding an
    [=], maps the name to the expression; the last pair given for a name
    decides, over the earlier pairs and over [--number-alias]. *)
Theorem getAlias_last_pair (flags : Command.IFlags) (entries : list string)
    (name expression : string) :
  Command.scalarAlias flags = Some (entries ++ [name +:+ "=" +:+ expression]) →
  holds "="%char name = false → holds "="%char expression = false →
  name ≠ "__proto__" →
  Command.getAlias flags !! name = Some (Some expression).
Proof.
  intros H Hn He Hp.
  destruct (getAlias_snoc flags entries _ H) as [alias ->].
  rewrite split_pair by assumption. simpl.
  unfold Command.setProperty. rewrite decide_False by assumption.
  apply lookup_insert_eq.
Qed.

(** X12. The pieces of a pair come from [split('=')], of which the first
    two are kept: of [name=a=rest] only [a] is the expression, whatever
    follows the second [=] is lost (so an expression such as a function
    type, which holds [=>], is cut); and an entry with no [=] at all gives
    the name the value [undefined], also when [--number-alias] had made it
    a number. *)
Theorem getAlias_cut (flags : Command.IFlags) (entries : list string)
    (name a rest : string) :
  holds "="%char name = false → holds "="%char a = false → name ≠ "__proto__" →
  (Command.scalarAlias flags = Some (entries ++ [name +:+ "=" +:+ a +:+ "=" +:+ rest]) →
   Command.getAlias flags !! name = Some (Some a)) ∧
  (Command.scalarAlias flags = Some (entries ++ [name]) →
   Command.getAlias flags !! name = Some None).
Proof.
  intros Hn Ha Hp. split; intros H.
  - destruct (getAlias_snoc flags entries _ H) as [alias ->].
    pose proof (split_more name a rest Hn Ha) as Hs.
    assert (Command.split (name +:+ "=" +:+ a +:+ "=" +:+ rest) "=" !! 0%nat = Some name
            ∧ Command.split (name +:+ "=" +:+ a +:+ "=" +:+ rest) "=" !! 1%nat = Some a)
      as [-> ->].
    { destruct (Command.split _ "=") as [|x [|y l]]; try discriminate.
      injection Hs as -> ->. now split. }
    simpl. unfold Command.setProperty. rewrite decide_False by assumption.
    apply lookup_insert_eq.
  - destruct (getAlias_snoc flags entries _ H) as [alias ->].
    rewrite split_single by assumption. simpl.
    unfold Command.setProperty. rewrite decide_False by assumption.
    apply lookup_insert_eq.
Qed.

Lemma foldl_setProperty_other {V E} (f : E → string * V) (l : list E)
    (m : gmap string V) (key : string) :
  Forall (λ e, (f e).1 ≠ key) l →
  foldl (λ acc e, Command.setProperty acc (f e).1 (f e).2) m l !! key = m !! key.
Proof.
  intros Hall. revert m. induction Hall as [|e l He _ IH]; intros m; [reflexivity|].
  simpl. rewrite IH. unfold Command.setProperty.
  destruct (decide ((f e).1 = "__proto__")); [reflexivity|].
  now rewrite lookup_insert_ne.
Qed.

Lemma foldl_number (names : list string) (m : gmap string jsstring) (key : string) :
  key ∈ names → key ≠ "__proto__" →
  foldl (λ alias scalarName, Command.setProperty alias scalarName (Some "number")) m names
  !! key = Some (Some "number").
Proof.
  intros Hin Hp. revert m. induction names as [|n names IH]; intros m.
  - now apply elem_of_nil in Hin.
  - cbn [foldl]. destruct (decide (key ∈ names)) as [Hk | Hk]; [now apply IH|].
    apply elem_of_cons in Hin as [<- | ?]; [|contradiction].
    transitivity (Command.setProperty m key (Some "number") !! key).
    + apply (foldl_setProperty_other (λ n : string, (n, (Some "number" : jsstring)))).
      apply Forall_forall. intros x Hx Heq. simpl in Heq. subst x. contradiction.
    + unfold Command.setProperty. rewrite decide_False by assumption.
      apply lookup_insert_eq.
Qed.

Lemma getAlias_number (numbers entries : list string) (name : string) :
  name ∈ numbers → name ≠ "__proto__" →
  Forall (λ entry, Command.toKey (Command.split entry "=" !! 0%nat) ≠ name) entries →
  Command.getAlias (aliasFlags numbers entries) !! name = Some (Some "number").
Proof.
  intros Hin Hp Hall. unfold Command.getAlias, aliasFlags.
  cbn [Command.scalarNumbers Command.scalarAlias].
  etransitivity; [|apply (foldl_number numbers ∅ name Hin Hp)].
  apply (foldl_setProperty_other
           (λ entry, (Command.toKey (Command.split entry "=" !! 0%nat),
                      Command.split entry "=" !! 1%nat))).
  exact Hall.
Qed.

Section CommandAndEmitter.

Variable EOL : string.
Variable wrap : string → nat → string → string.
Variable inspect : string → string.
Variable localeCompare : string → string → Z.

(** X13. A scalar named under [--number-alias], and by no pair of
    [--alias], is emitted as an alias of [number] when its name is not that
    of a built-in scalar; the flag has no effect on Boolean, Int, Float and
    String, which keep their built-in alias. *)
Theorem number_alias_reaches_output (numbers entries : list string) (schema : Schema)
    (types' : list Entry) (q : list Task) (t : SchemaType) :
  name t ∈ numbers → name t ≠ "__proto__" →
  Forall (λ entry, Command.toKey (Command.split entry "=" !! 0%nat) ≠ name t) entries →
  createSchemaDefinitionQueue EOL wrap inspect localeCompare schema
    (aliasTable (Command.getAlias (aliasFlags numbers entries))) = Ok (types', q) →
  Obj t ∈ types schema → kind t = SCALAR → truthy (description t) = false →
  ∃ task : Task, task ∈ q ∧
    task tt = Ok ("export type " +:+ name t +:+ " = "
                  +:+ (if decide (name t = "Boolean") then "boolean"
                       else if decide (name t = "String") then "string"
                       else "number") +:+ ";").
Proof.
  intros Hin Hp Hall H Ht Hk Hd.
  destruct (scalar_task EOL wrap inspect localeCompare schema _ types' q t H Ht Hk)
    as (task & Hq & Hrun).
  exists task. split; [assumption|]. rewrite Hrun, getProperty_merged.
  unfold scalarToDefinition. rewrite Hd. cbn [app join].
  destruct (decide (builtinScalar (name t))) as [Hb | Hb].
  - unfold builtinScalar in Hb. rewrite !elem_of_cons, elem_of_nil in Hb.
    destruct Hb as [-> | [-> | [-> | [-> | []]]]]; reflexivity.
  - unfold getProperty, aliasTable. rewrite lookup_omap.
    pose proof (getAlias_number numbers entries (name t) Hin Hp Hall) as Hg.
    unfold jsstring in *. rewrite Hg. simpl.
    unfold builtinScalar in Hb. rewrite !elem_of_cons, elem_of_nil in Hb.
    rewrite !decide_False by tauto. reflexivity.
Qed.

End CommandAndEmitter.

Lemma getAlias_last_pair_witness :
  Command.getAlias (aliasFlags ["Both"] ["Both=string"; "Both=number | string"]) !! "Both"
  = Some (Some "number | string").
Proof.
  apply (getAlias_last_pair (aliasFlags ["Both"] ["Both=string"; "Both=number | string"])
           ["Both=string"] "Both" "number | string");
    [reflexivity | reflexivity | reflexivity | discriminate].
Defined.

Lemma getAlias_cut_witness :
  Command.getAlias (aliasFlags [] ["Fn=(x: number) => void"]) !! "Fn"
  = Some (Some "(x: number) ").
Proof.
  apply (proj1 (getAlias_cut (aliasFlags [] ["Fn=(x: number) => void"]) []
                  "Fn" "(x: number) " "> void" eq_refl eq_refl ltac:(discriminate))).
  reflexivity.
Defined.

Lemma number_alias_reaches_output_witness :
  ∃ types' q,
    createSchemaDefinitionQueue LF indentOnly nativeCode ordinalCompare
      (schemaOf [Obj (plainType SCALAR "UnsignedInt")])
      (aliasTable (Command.getAlias (aliasFlags ["UnsignedInt"] []))) = Ok (types', q) ∧
    ∃ task : Task, task ∈ q ∧ task tt = Ok "export type UnsignedInt = number;".
Proof.
  eexists _, _. split; [reflexivity|].
  apply (number_alias_reaches_output LF indentOnly nativeCode ordinalCompare
           ["UnsignedInt"] [] (schemaOf [Obj (plainType SCALAR "UnsignedInt")]) _ _
           (plainType SCALAR "UnsignedInt")
           (list_elem_of_here _ _) ltac:(discriminate) (Forall_nil_2 _) eq_refl
           (list_elem_of_here _ _) eq_refl eq_refl).
Defined.

Lemma splitFrom_free (separator piece s : string) :
  separatorFree separator s = true →
  Command.splitFrom separator 0 piece s = [piece +:+ s].
Proof.
  revert piece. induction s as [|c s IH]; intros piece H.
  - simpl. now rewrite append_nil_r.
  - cbn [separatorFree] in H. apply andb_true_iff in H as [Hp Hs].
    apply negb_true_iff in Hp. cbn [Command.splitFrom]. rewrite Hp.
    rewrite IH by assumption. now rewrite append_assoc.
Qed.

Lemma splitFrom_header (piece name rest : string) :
  holds ":"%char name = false →
  Command.splitFrom ": " 0 piece (name +:+ ": " +:+ rest)
  = (piece +:+ name) :: Command.splitFrom ": " 0 "" rest.
Proof.
  revert piece. induction name as [|c name IH]; intros piece H.
  - change ("" +:+ ": " +:+ rest) with (String ":" (String " " rest)).
    cbn [Command.splitFrom].
    assert (String.prefix ": " (String ":" (String " " rest)) = true) as ->
      by now destruct rest.
    cbn [String.length Nat.sub Command.splitFrom]. now rewrite append_nil_r.
  - change (String c name +:+ ": " +:+ rest)
      with (String c (name +:+ ": " +:+ rest)).
    cbn [holds] in H.
    destruct (decide (c = ":"%char)) as [-> | Hne]; [discriminate|].
    cbn [Command.splitFrom].
    assert (String.prefix ": " (String c (name +:+ ": " +:+ rest)) = false) as ->.
    { cbn [String.prefix]. destruct (ascii_dec ":" c) as [<- | _]; [contradiction|].
      reflexivity. }
    rewrite IH by assumption. rewrite append_assoc. reflexivity.
Qed.

Lemma reduceHeaders_snoc (headers : list string) (header : string) :
  Command.reduceHeaders (headers ++ [header])
  = Command.setProperty (Command.reduceHeaders headers)
      (Command.toKey (Command.splitLimit header ": " 2 !! 0%nat))
      (Command.splitLimit header ": " 2 !! 1%nat).
Proof. unfold Command.reduceHeaders. now rewrite foldl_app. Qed.

Lemma holds_separatorFree (value : string) :
  holds ":"%char value = false → separatorFree ": " value = true.
Proof.
  induction value as [|c value IH]; [reflexivity|].
  cbn [holds separatorFree String.prefix].
  destruct (decide (c = ":"%char)) as [-> | Hne]; [discriminate|]. intros H.
  destruct (ascii_dec ":" c) as [<- | _]; [contradiction|].
  cbn [negb andb]. now apply IH.
Qed.

(** X14. A header [Name: value] of [--header], the name without a colon
    and the value without a colon-space, is sent as [value] under [Name],
    the last header given for a name deciding. Of a header with a second
    colon-space only the part before it is the value, the rest is lost;
    and a header with no colon-space is sent under its whole text with the
    value [undefined]. *)
Theorem reduceHeaders_pairs (headers : list string) (name value rest : string) :
  holds ":"%char name = false → name ≠ "__proto__" →
  (separatorFree ": " value = true →
   Command.reduceHeaders (headers ++ [name +:+ ": " +:+ value]) !! name
   = Some (Some value)) ∧
  (holds ":"%char value = false →
   Command.reduceHeaders (headers ++ [name +:+ ": " +:+ value +:+ ": " +:+ rest]) !! name
   = Some (Some value)) ∧
  Command.reduceHeaders (headers ++ [name]) !! name = Some None.
Proof.
  intros Hn Hp.
  assert (∀ (m : gmap string jsstring) (v : jsstring),
            Command.setProperty m name v !! name = Some v) as Hset.
  { intros m v. unfold Command.setProperty. rewrite decide_False by assumption.
    apply lookup_insert_eq. }
  split; [|split].
  - intros Hv. rewrite reduceHeaders_snoc.
    unfold Command.splitLimit, Command.split.
    rewrite splitFrom_header, splitFrom_free by assumption. simpl. apply Hset.
  - intros Hv. rewrite reduceHeaders_snoc.
    unfold Command.splitLimit, Command.split.
    rewrite !splitFrom_header by assumption. simpl. apply Hset.
  - rewrite reduceHeaders_snoc.
    unfold Command.splitLimit, Command.split.
    rewrite splitFrom_free by now apply holds_separatorFree. simpl. apply Hset.
Qed.

Lemma reduceHeaders_pairs_witness :
  Command.reduceHeaders ["Authorization: Token cb8795e7"] !! "Authorization"
  = Some (Some "Token cb8795e7").
Proof.
  apply (proj1 (reduceHeaders_pairs [] "Authorization" "Token cb8795e7" ""
                  eq_refl ltac:(discriminate))).
  reflexivity.
Defined.

Section GetSchema.

Variable resolve : string → string.
Variable require : string → result Command.Introspection.
Variable request : Command.RequestOptions → exn + Command.Introspection.
Variable introspectionQuery : string.
Variable strict : bool.

Lemma reduceQueries_TypeError (queries : list string) (e : exn) :
  Command.reduceQueries strict queries = Throw e → ∃ msg, e = TypeError msg.
Proof.
  destruct queries as [|first rest]; cbn [Command.reduceQueries].
  - intros [= <-]. eauto.
  - generalize first. induction rest as [|query rest IH]; intros acc; cbn [forEach].
    + discriminate.
    + destruct (decide (Command.queryName query = "__proto__"));
        cbn [mbind result_bind]; [apply IH|].
      destruct strict; cbn [mbind result_bind]; [|apply IH].
      intros [= <-]. eauto.
Qed.

Lemma reduceQueries_Ok (first : string) (rest : list string) (qs : string) :
  Command.reduceQueries strict (first :: rest) = Ok qs ↔
  qs = first ∧
  (strict = false ∨ Forall (λ query, Command.queryName query = "__proto__") rest).
Proof.
  cbn [Command.reduceQueries]. generalize first.
  induction rest as [|query rest IH]; intros acc; cbn [forEach].
  - split; [intros [= <-]; split; [reflexivity | right; constructor]
           | now intros [-> _]].
  - destruct (decide (Command.queryName query = "__proto__")) as [Hq | Hq];
      cbn [mbind result_bind].
    + rewrite IH. split; intros [-> [Hs | Hall]]; (split; [reflexivity|]).
      * now left.
      * right. now constructor.
      * now left.
      * right. now inversion Hall.
    + destruct strict; cbn [mbind result_bind].
      * split; [discriminate|]. intros [_ [[=] | Hall]]. now inversion Hall.
      * rewrite IH. split; intros [-> _]; (split; [reflexivity | now left]).
Qed.

(** X16. In endpoint mode the reducer of the queries has no initial value.
    So without a query (the flag absent or empty), or without the array
    of headers, [getSchema] throws a [TypeError] itself and asks nothing.
    With headers and at least one query it returns exactly when the code
    is not strict or every query after the first is assigned under
    [__proto__] (the one name whose assignment to a string does not throw);
    so with one query it always returns. Whenever it returns, the
    request was made with the [qs] that is the first query as typed, not a
    map of names to values. And an answer without [data] makes the
    callback throw: the promise neither resolves nor rejects. *)
Theorem getSchema_endpoint (flags : Command.IFlags) :
  truthy (Command.schemaFile flags) = false →
  truthy (Command.endpoint flags) = true →
  ((Command.headers flags = None ∨ Command.queries flags = None
    ∨ Command.queries flags = Some []) →
   ∃ msg, Command.getSchema resolve require request introspectionQuery strict flags
          = Throw (TypeError msg)) ∧
  (∀ headers first rest,
     Command.headers flags = Some headers →
     Command.queries flags = Some (first :: rest) →
     (is_Ok (Command.getSchema resolve require request introspectionQuery strict flags)
      = true
      ↔ strict = false
        ∨ Forall (λ query, Command.queryName query = "__proto__") rest) ∧
     (is_Ok (Command.getSchema resolve require request introspectionQuery strict flags)
      = false →
      ∃ msg, Command.getSchema resolve require request introspectionQuery strict flags
             = Throw (TypeError msg))) ∧
  (∀ outcome,
     Command.getSchema resolve require request introspectionQuery strict flags = Ok outcome →
     ∃ headers first rest,
       Command.headers flags = Some headers ∧
       Command.queries flags = Some (first :: rest) ∧
       outcome
       = match request (Command.mkOptions (toString (Command.endpoint flags)) "POST" true
                          introspectionQuery (Command.reduceHeaders headers) first) with
         | inl err => Command.Rejects err
         | inr (Command.Data schema) => Command.Resolves schema
         | inr Command.NoData => Command.Uncaught (readOfUndefined "__schema")
         | inr Command.NotAnObject => Command.Uncaught (readOfNull "data")
         end).
Proof.
  intros Hfile Hend. unfold Command.getSchema. rewrite Hfile, Hend.
  split; [|split].
  - intros [-> | [Hq | Hq]].
    + simpl. eauto.
    + rewrite Hq. destruct (Command.headers flags); simpl; eauto.
    + rewrite Hq. destruct (Command.headers flags); simpl; eauto.
  - intros headers first rest -> ->. cbn [mbind result_bind].
    destruct (Command.reduceQueries strict (first :: rest)) as [qs|e] eqn:Hqs;
      cbn [mbind result_bind is_Ok].
    + apply reduceQueries_Ok in Hqs as [_ Hcond]. split; [tauto | discriminate].
    + split.
      * split; [discriminate|]. intros Hcond.
        assert (Command.reduceQueries strict (first :: rest) = Ok first) as Hok
          by (apply reduceQueries_Ok; now split).
        congruence.
      * intros _. apply reduceQueries_TypeError in Hqs as [msg ->]. eauto.
  - intros outcome H.
    destruct (Command.headers flags) as [headers|]; [|discriminate].
    destruct (Command.queries flags) as [[|first rest]|]; try discriminate.
    cbn [mbind result_bind] in H.
    destruct (Command.reduceQueries strict (first :: rest)) as [qs|] eqn:Hqs;
      [|discriminate].
    apply reduceQueries_Ok in Hqs as [-> _].
    cbn [mbind result_bind] in H. injection H as <-.
    exists headers, first, rest. repeat split.
    destruct (request _) as [err|[| |schema]]; reflexivity.
Qed.

End GetSchema.

Lemma getSchema_endpoint_witness :
  is_Ok (Command.getSchema id noFile emptyAnswer "" true
           (endpointFlags (Some ["Authorization: Token cb8795e7"])
                          (Some ["token=cb8795e7"; "__proto__=x"]))) = true ∧
  is_Ok (Command.getSchema id noFile emptyAnswer "" true
           (endpointFlags (Some []) (Some ["token=cb8795e7"; "page=2"]))) = false.
Proof.
  split.
  - apply (proj1 (proj2 (getSchema_endpoint id noFile emptyAnswer "" true
                           (endpointFlags (Some ["Authorization: Token cb8795e7"])
                                          (Some ["token=cb8795e7"; "__proto__=x"]))
                           eq_refl eq_refl)) _ _ _ eq_refl eq_refl).
    right. repeat constructor.
  - reflexivity.
Defined.

(** ** The first revision *)

Section FirstRevision.

Variable EOL : string.
Variable wrap : string → nat → string → string.
Variable inspect : string → string.

Lemma part003_forEach (alias : gmap string string) (l : list Entry) (acc : list string) :
  forEach (Part003.pushType EOL wrap inspect alias) l acc
  = (blocks ← mapM (Part003.definitionOf EOL wrap inspect alias) (objects l);
     Ok (acc ++ blocks)).
Proof.
  revert acc. induction l as [|x l IH]; intros acc.
  - simpl. now rewrite app_nil_r.
  - destruct x as [| |t]; cbn [forEach Part003.pushType objects omap list_omap];
      cbn [mbind result_bind]; [apply IH | apply IH |].
    cbn [mapM]. destruct (Part003.definitionOf EOL wrap inspect alias t) as [block|e];
      cbn [mbind result_bind]; [|reflexivity].
    rewrite IH. fold (objects l).
    destruct (mapM _ (objects l)) as [blocks|e]; cbn [mbind result_bind]; [|reflexivity].
    now rewrite <- app_assoc.
Qed.

(** X17. The first revision, which does not sort, renders the entities in
    the order of the array and skips [null] and [undefined] wherever they
    stand: its document is the utility block, the [Schema] block and the
    block of each entity in turn, joined by blank lines, and it throws
    the error of the first entity that cannot be rendered. *)
Theorem part003_array_order (schema : Part003.Schema) (alias : gmap string string) :
  Part003.schemaToDefinition EOL wrap inspect schema alias
  = (blocks ← mapM (Part003.definitionOf EOL wrap inspect
                      (objectAssign ∅ [alias; standardAlias]))
                   (objects (Part003.types schema));
     Ok (join (EOL +:+ EOL)
           (utilDefinition EOL :: Part003.schemaBlock EOL wrap schema :: blocks))).
Proof.
  unfold Part003.schemaToDefinition. cbv zeta. rewrite part003_forEach.
  now destruct (mapM _ _).
Qed.

(** X18. The optional marker came after the first revision, which writes
    every field with [": "]: the two renderings of a field are the same
    when its type is a NON_NULL, and differ when it is not and the type
    resolves. *)
Theorem field_marker_added (field : Field) :
  (ref_kind (f_type field) = NON_NULL →
   fieldToDefinition EOL wrap field = Part003.fieldToDefinition EOL wrap field) ∧
  (ref_kind (f_type field) ≠ NON_NULL → wellFormed (f_type field) = true →
   fieldToDefinition EOL wrap field ≠ Part003.fieldToDefinition EOL wrap field).
Proof.
  unfold fieldToDefinition, Part003.fieldToDefinition. split.
  - intros Hk. now rewrite decide_True by assumption.
  - intros Hk Hw. rewrite decide_False by assumption.
    destruct (refToDefinition_defined (f_type field) false Hw) as [ref ->].
    cbn [mbind result_bind]. intros [= H]. revert H.
    destruct (truthy (f_description field) || f_isDeprecated field);
      cbn [app join]; rewrite ?append_assoc; intros H;
      repeat (first [apply (inj (String.append _)) in H | progress injection H as H]);
      discriminate.
Qed.

End FirstRevision.

Lemma field_marker_added_witness :
  fieldToDefinition LF indentOnly (mkField "id" None false None [] (named SCALAR "Int"))
  ≠ Part003.fieldToDefinition LF indentOnly
      (mkField "id" None false None [] (named SCALAR "Int")).
Proof.
  apply (proj2 (field_marker_added LF indentOnly
                  (mkField "id" None false None [] (named SCALAR "Int"))));
    [discriminate | reflexivity].
Defined.
